(** * FinanceCompare Pro: the metric computations of [app.py]

    A shallow embedding of the computational core of [src/app.py]
    ([calculate_cagr], [calculate_volatility], [calculate_max_drawdown],
    the rolling volatility of [plot_volatility_comparison], the inline
    price normalisation of the main flow and [display_comparison_metric])
    together with the properties the specification states about them.

    Numbers.  The program computes on numpy [float64] values.  They are
    modelled by [float64] below: a finite value carries an exact real
    number, and the IEEE special values (the two infinities and NaN) are
    kept, with their arithmetic, because the program's behaviour on short
    series and on zero prices is decided by them.  Rounding error and
    overflow of finite values, and the sign of zero, are outside the model:
    every statement about finite values is a statement in exact real
    arithmetic. *)

From Stdlib Require Import Reals ZArith String List Bool Lra Lia.
Import ListNotations.

Open Scope R_scope.

(** ** Numbers *)

Module Float64.

Inductive float64 : Type :=
| Fin (x : R)
| Inf (neg : bool)
| NaN.

Definition Rneg (x : R) : bool := if Rlt_dec x 0 then true else false.

Definition isnan (a : float64) : bool :=
  match a with NaN => true | _ => false end.

Definition fadd (a b : float64) : float64 :=
  match a, b with
  | NaN, _ | _, NaN => NaN
  | Fin x, Fin y => Fin (x + y)
  | Fin _, Inf s | Inf s, Fin _ => Inf s
  | Inf s, Inf t => if Bool.eqb s t then Inf s else NaN
  end.

Definition fsub (a b : float64) : float64 :=
  match a, b with
  | NaN, _ | _, NaN => NaN
  | Fin x, Fin y => Fin (x - y)
  | Fin _, Inf s => Inf (negb s)
  | Inf s, Fin _ => Inf s
  | Inf s, Inf t => if Bool.eqb s t then NaN else Inf s
  end.

Definition fmul (a b : float64) : float64 :=
  match a, b with
  | NaN, _ | _, NaN => NaN
  | Fin x, Fin y => Fin (x * y)
  | Fin x, Inf s | Inf s, Fin x =>
      if Req_dec_T x 0 then NaN else Inf (xorb s (Rneg x))
  | Inf s, Inf t => Inf (xorb s t)
  end.

(** Division of numpy scalars does not raise: a zero divisor gives an
    infinity, or NaN for [0 / 0]. *)
Definition fdiv (a b : float64) : float64 :=
  match a, b with
  | NaN, _ | _, NaN => NaN
  | Fin x, Fin y =>
      if Req_dec_T y 0
      then (if Req_dec_T x 0 then NaN else Inf (Rneg x))
      else Fin (x / y)
  | Fin _, Inf _ => Fin 0
  | Inf s, Fin y => Inf (xorb s (Rneg y))
  | Inf _, Inf _ => NaN
  end.

Definition fsqrt (a : float64) : float64 :=
  match a with
  | Fin x => if Rlt_dec x 0 then NaN else Fin (sqrt x)
  | Inf false => Inf false
  | Inf true => NaN
  | NaN => NaN
  end.

Definition is_int (y : R) : bool :=
  if Req_dec_T (IZR (Int_part y)) y then true else false.

(** [x ** y] for a float64 base and a finite exponent. *)
Definition fpow (a : float64) (y : R) : float64 :=
  if Req_dec_T y 0 then Fin 1 else
  match a with
  | NaN => NaN
  | Fin x =>
      if Rlt_dec 0 x then Fin (Rpower x y)
      else if Req_dec_T x 0 then (if Rlt_dec 0 y then Fin 0 else Inf false)
      else if is_int y then Fin (powerRZ x (Int_part y)) else NaN
  | Inf false => if Rlt_dec 0 y then Inf false else Fin 0
  | Inf true =>
      if Rlt_dec 0 y
      then (if is_int y && Z.odd (Int_part y) then Inf true else Inf false)
      else Fin 0
  end.

(** Comparisons; any comparison with NaN is false. *)
Definition flt (a b : float64) : bool :=
  match a, b with
  | NaN, _ | _, NaN => false
  | Fin x, Fin y => if Rlt_dec x y then true else false
  | Fin _, Inf s => negb s
  | Inf s, Fin _ => s
  | Inf s, Inf t => s && negb t
  end.

Definition fgt (a b : float64) : bool := flt b a.

Definition fabs (a : float64) : float64 :=
  match a with
  | Fin x => Fin (Rabs x)
  | Inf _ => Inf false
  | NaN => NaN
  end.

(** Rounding to the nearest integer, ties to the even one. *)
Definition rint (x : R) : Z :=
  let n := Int_part x in
  let f := x - IZR n in
  if Rlt_dec f (1 / 2) then n
  else if Rlt_dec (1 / 2) f then (n + 1)%Z
  else if Z.even n then n else (n + 1)%Z.

(** [round(x, 2)] on a real number.  The program rounds the float64 it has
    computed, which differs from the exact value by the rounding error of
    the arithmetic; when the exact value is a tie between two cents, or
    closer to one than that error, the program may return either of the two
    cents.  Statements about all series therefore give a rounded result up
    to this: see [rounded_to_cents]. *)
Definition round2 (x : R) : R := IZR (rint (x * 100)) / 100.

(** [round(a, 2)] on a float64: the special values are unchanged. *)
Definition fround2 (a : float64) : float64 :=
  match a with
  | Fin x => Fin (round2 x)
  | other => other
  end.

End Float64.
Import Float64.

(** ** Python results *)

Inductive exn : Type := ZeroDivisionError | IndexError.

Inductive outcome (A : Type) : Type :=
| Raise (e : exn)
| Return (a : A).
Arguments Raise {A} e.
Arguments Return {A} a.

(** ** Price data

    A pandas Series is its index (timestamps) with its values; the
    [DataFrame] the program passes around has the single column [Close]. *)

Definition timestamp : Type := Z.
Definition Series : Type := list (timestamp * float64).
Definition DataFrame : Type := Series.

Definition values (s : Series) : list float64 := map snd s.
Definition index (s : Series) : list timestamp := map fst s.

(** The frame holding the finite closes [s]. *)
Definition of_reals (s : list (timestamp * R)) : DataFrame :=
  map (fun p => (fst p, Fin (snd p))) s.

(** ** [calculate_cagr] *)

Definition calculate_cagr (prices : option DataFrame) (years : Z)
  : outcome (option float64) :=
  match prices with
  | None => Return None
  | Some [] => Return None
  | Some ((t0, start_price) :: rest) =>
      let end_price := snd (last rest (t0, start_price)) in
      let ratio := fdiv end_price start_price in
      if (years =? 0)%Z then Raise ZeroDivisionError
      else
        let cagr :=
          fmul (fsub (fpow ratio (1 / IZR years)) (Fin 1)) (Fin 100) in
        Return (Some (fround2 cagr))
  end.

(** ** pandas operations used by the metrics *)

Definition notna (p : timestamp * float64) : bool := negb (isnan (snd p)).

(** [Series.pct_change()]: missing values are padded with the last valid
    one, then each value is divided by its predecessor, minus one; the first
    entry has no predecessor and is NaN. *)
Fixpoint pct_change_from (prev : float64) (s : Series) : Series :=
  match s with
  | [] => []
  | (t, x) :: s' =>
      let x' := if isnan x then prev else x in
      (t, fsub (fdiv x' prev) (Fin 1)) :: pct_change_from x' s'
  end.

Definition pct_change (s : Series) : Series := pct_change_from NaN s.

(** [Series.dropna()] *)
Definition dropna (s : Series) : Series := filter notna s.

(** [Series.add(1)] *)
Definition add1 (s : Series) : Series :=
  map (fun p => (fst p, fadd (snd p) (Fin 1))) s.

(** [Series.cumprod()]: missing values are skipped and stay missing. *)
Fixpoint cumprod_from (acc : float64) (s : Series) : Series :=
  match s with
  | [] => []
  | (t, x) :: s' =>
      if isnan x then (t, NaN) :: cumprod_from acc s'
      else (t, fmul acc x) :: cumprod_from (fmul acc x) s'
  end.

Definition cumprod (s : Series) : Series := cumprod_from (Fin 1) s.

Definition fmax (a b : float64) : float64 := if flt a b then b else a.
Definition fmin (a b : float64) : float64 := if flt b a then b else a.

(** [Series.expanding(min_periods=1).max()]: the largest valid value seen so
    far, NaN while there is none. *)
Fixpoint expanding_max_from (best : option float64) (s : Series) : Series :=
  match s with
  | [] => []
  | (t, x) :: s' =>
      let best' :=
        if isnan x then best
        else match best with
             | None => Some x
             | Some m => Some (fmax m x)
             end in
      (t, match best' with None => NaN | Some m => m end)
        :: expanding_max_from best' s'
  end.

Definition expanding_max (s : Series) : Series := expanding_max_from None s.

(** Element-wise binary operation of two Series with the same index. *)
Fixpoint series_zip (f : float64 -> float64 -> float64) (a b : Series)
  : Series :=
  match a, b with
  | (t, x) :: a', (_, y) :: b' => (t, f x y) :: series_zip f a' b'
  | _, _ => []
  end.

Definition series_map (f : float64 -> float64) (s : Series) : Series :=
  map (fun p => (fst p, f (snd p))) s.

(** [Series.min()]: the smallest valid value, NaN when there is none. *)
Definition nanmin (l : list float64) : float64 :=
  match filter (fun x => negb (isnan x)) l with
  | [] => NaN
  | x :: l' => fold_left fmin l' x
  end.

Definition fsum (l : list float64) : float64 := fold_right fadd (Fin 0) l.

(** Variance and standard deviation with [ddof] delta degrees of freedom, as
    pandas computes them: missing values are skipped, and the result is NaN
    when no more than [ddof] values remain. *)
Definition nanvar (ddof : nat) (l : list float64) : float64 :=
  let vals := filter (fun x => negb (isnan x)) l in
  let count := length vals in
  if (count <=? ddof)%nat then NaN
  else
    let avg := fdiv (fsum vals) (Fin (INR count)) in
    let sqr := map (fun x => fmul (fsub avg x) (fsub avg x)) vals in
    fdiv (fsum sqr) (Fin (INR (count - ddof))).

Definition nanstd (ddof : nat) (l : list float64) : float64 :=
  fsqrt (nanvar ddof l).

(** [np.std(returns)] on a Series calls [returns.std(ddof=0)]: numpy's
    default [ddof=0] is passed on to pandas. *)
Definition np_std (s : Series) : float64 := nanstd 0 (values s).

(** [Series.rolling(window=w).std()]: pandas' default [ddof=1] and
    [min_periods = w]; one entry per input entry, NaN until the window holds
    [w] valid observations. *)
Definition lastn {A : Type} (n : nat) (l : list A) : list A :=
  skipn (length l - n) l.

Fixpoint rolling_std_from (w : nat) (seen : list float64) (s : Series)
  : Series :=
  match s with
  | [] => []
  | (t, x) :: s' =>
      let win := lastn w (seen ++ [x]) in
      let nobs := length (filter (fun x => negb (isnan x)) win) in
      (t, if (nobs <? w)%nat then NaN else nanstd 1 win)
        :: rolling_std_from w (seen ++ [x]) s'
  end.

Definition rolling_std (w : nat) (s : Series) : Series :=
  rolling_std_from w [] s.

(** ** [calculate_volatility] *)

Definition calculate_volatility (prices : option DataFrame)
  : outcome (option float64) :=
  match prices with
  | None => Return None
  | Some [] => Return None
  | Some df =>
      let returns := dropna (pct_change df) in
      let volatility :=
        fmul (fmul (np_std returns) (fsqrt (Fin 252))) (Fin 100) in
      Return (Some (fround2 volatility))
  end.

(** ** [calculate_max_drawdown] *)

Definition drawdown_series (df : DataFrame) : Series :=
  let cumulative := cumprod (add1 (pct_change df)) in
  let peak := expanding_max cumulative in
  series_map (fun x => fmul (fsub x (Fin 1)) (Fin 100))
             (series_zip fdiv cumulative peak).

Definition calculate_max_drawdown (prices : option DataFrame)
  : outcome (option float64) :=
  match prices with
  | None => Return None
  | Some [] => Return None
  | Some df => Return (Some (fround2 (nanmin (values (drawdown_series df)))))
  end.

(** ** Rolling volatility of [plot_volatility_comparison] *)

Definition window : nat := 63.

Definition rolling_vol (prices : DataFrame) : Series :=
  let returns := dropna (pct_change prices) in
  series_map (fun x => fmul (fmul x (fsqrt (Fin 252))) (Fin 100))
             (rolling_std window returns).

(** The figure is modelled by its two traces ([x] the index, [y] the values
    of each rolling series); [None] is the early [return None]. *)
Definition plot_volatility_comparison (prices1 prices2 : option DataFrame)
  : option (Series * Series) :=
  match prices1, prices2 with
  | Some (p1 :: r1), Some (p2 :: r2) =>
      Some (rolling_vol (p1 :: r1), rolling_vol (p2 :: r2))
  | _, _ => None
  end.

(** ** Normalisation of the price chart (main flow)

    [prices / prices.iloc[0] * 100]; [iloc[0]] raises on an empty frame,
    which the main flow excludes before normalising. *)

Definition normalize (prices : DataFrame) : outcome DataFrame :=
  match prices with
  | [] => Raise IndexError
  | (_, close_0) :: _ =>
      Return (series_map (fun c => fmul (fdiv c close_0) (Fin 100)) prices)
  end.

Definition bind {A B : Type} (m : outcome A) (k : A -> outcome B)
  : outcome B :=
  match m with
  | Raise e => Raise e
  | Return a => k a
  end.

(** The two normalised traces of the price chart; [None] is the branch that
    shows the warning instead. *)
Definition normalized_price_chart (prices1 prices2 : option DataFrame)
  : outcome (option (DataFrame * DataFrame)) :=
  match prices1, prices2 with
  | Some (p1 :: r1), Some (p2 :: r2) =>
      bind (normalize (p1 :: r1)) (fun norm_prices1 =>
      bind (normalize (p2 :: r2)) (fun norm_prices2 =>
      Return (Some (norm_prices1, norm_prices2))))
  | _, _ => Return None
  end.

(** ** [display_comparison_metric] *)

Inductive badge : Type := positive | negative | neutral.

(** The text of the badge: [f"+{abs_diff:.2f}{unit}"], with sign ["-"] for a
    negative difference, or [f"0{unit}"]. *)
Inductive badge_text : Type :=
| SignedText (sign : string) (abs_diff : float64) (unit : string)
| ZeroText (unit : string).

(** What the function renders: the two value cards and the badge. *)
Record comparison : Type := mkComparison {
  shown1 : float64;
  shown2 : float64;
  diff : float64;
  badge_class : badge;
  comparison_text : badge_text
}.

Definition display_comparison_metric
           (value1 value2 : option float64) (unit : string) (reverse : bool)
  : option comparison :=
  match value1, value2 with
  | Some v1, Some v2 =>
      let diff := fsub v1 v2 in
      let abs_diff := fabs diff in
      let '(cls, text) :=
        if fgt diff (Fin 0)
        then (if negb reverse then positive else negative,
              SignedText "+" abs_diff unit)
        else if flt diff (Fin 0)
        then (if negb reverse then negative else positive,
              SignedText "-" abs_diff unit)
        else (neutral, ZeroText unit) in
      Some (mkComparison v1 v2 diff cls text)
  | _, _ => None
  end.

(** ** The specification's formulas, on real numbers *)

Definition Rsum (l : list R) : R := fold_right Rplus 0 l.
Definition Rmean (l : list R) : R := Rsum l / INR (length l).
Definition sum_sq_dev (l : list R) : R :=
  Rsum (map (fun x => (Rmean l - x) * (Rmean l - x)) l).

Definition sample_std (l : list R) : R :=
  sqrt (sum_sq_dev l / INR (length l - 1)).
Definition population_std (l : list R) : R :=
  sqrt (sum_sq_dev l / INR (length l)).

(** [r_t = close_t / close_{t-1} - 1], stamped with the time of [close_t]. *)
Fixpoint returns_from (prev : R) (s : list (timestamp * R))
  : list (timestamp * R) :=
  match s with
  | [] => []
  | (t, c) :: s' => (t, c / prev - 1) :: returns_from c s'
  end.

Definition returns_of (s : list (timestamp * R)) : list (timestamp * R) :=
  match s with
  | [] => []
  | (_, c0) :: s' => returns_from c0 s'
  end.

Definition annualize (sd : R) : R := sd * sqrt 252 * 100.

Definition spec_volatility (s : list (timestamp * R)) : R :=
  round2 (annualize (sample_std (map snd (returns_of s)))).

(** The formula of the specification, on real numbers. *)
Definition first_close (s : list (timestamp * R)) : R := snd (hd (0%Z, 0) s).
Definition last_close (s : list (timestamp * R)) : R := snd (last s (0%Z, 0)).

Definition spec_cagr (firstClose lastClose : R) (years : Z) : R :=
  round2 ((Rpower (lastClose / firstClose) (1 / IZR years) - 1) * 100).

(** A price series of the data model: every close is positive. *)
Definition positive_closes (s : list (timestamp * R)) : Prop :=
  Forall (fun p => 0 < snd p) s.

(** Rebasing to 100, as the specification writes it. *)
Definition spec_normalize (s : list (timestamp * R)) : list (timestamp * R) :=
  map (fun p => (fst p, snd p / first_close s * 100)) s.

(** Growth factors, running peak and drawdown on real numbers:
    [g_t] is the product of [1 + r_i], [peak_t] the largest [g] so far and
    the drawdown is [(g_t / peak_t - 1) * 100]. *)
Fixpoint Rcumprod_from (acc : R) (l : list (timestamp * R))
  : list (timestamp * R) :=
  match l with
  | [] => []
  | (t, x) :: l' => (t, acc * x) :: Rcumprod_from (acc * x) l'
  end.

Fixpoint Rdrawdowns_from (peak : R) (g : list (timestamp * R))
  : list (timestamp * R) :=
  match g with
  | [] => []
  | (t, x) :: g' =>
      (t, (x / Rmax peak x - 1) * 100) :: Rdrawdowns_from (Rmax peak x) g'
  end.

Definition Rdrawdowns (g : list (timestamp * R)) : list (timestamp * R) :=
  match g with
  | [] => []
  | (_, x) :: _ => Rdrawdowns_from x g
  end.

Definition growth_of (s : list (timestamp * R)) : list (timestamp * R) :=
  Rcumprod_from 1 (map (fun p => (fst p, snd p + 1)) (returns_of s)).

(** A series that never declines. *)
Fixpoint nondecreasing_from (prev : R) (l : list (timestamp * R)) : Prop :=
  match l with
  | [] => True
  | (_, c) :: l' => prev <= c /\ nondecreasing_from c l'
  end.

Definition nondecreasing (s : list (timestamp * R)) : Prop :=
  match s with
  | [] => True
  | (_, c0) :: rest => nondecreasing_from c0 rest
  end.

(** The rolling volatility on real-valued returns: one entry per return,
    missing until [w] returns are available, then the annualised sample
    standard deviation of the trailing [w] returns. *)
Fixpoint rolling_spec_from (w : nat) (seen : list R)
         (r : list (timestamp * R)) : Series :=
  match r with
  | [] => []
  | (t, x) :: r' =>
      let win := lastn w (seen ++ [x]) in
      (t, if (length win <? w)%nat then NaN
          else Fin (annualize (sample_std win)))
        :: rolling_spec_from w (seen ++ [x]) r'
  end.

(** Two concrete price series used below: eight closes doubling from 1 to
    128 followed by an unchanged close, and one close of 1 followed by 63
    closes of 2 (so that there are exactly [window] returns). *)
Definition doubling_then_flat : list (timestamp * R) :=
  [(0%Z, 1); (1%Z, 2); (2%Z, 4); (3%Z, 8); (4%Z, 16); (5%Z, 32);
   (6%Z, 64); (7%Z, 128); (8%Z, 128)].

Definition jump_then_flat : list (timestamp * R) :=
  (0%Z, 1) :: map (fun k => (Z.of_nat k, 2)) (seq 1 63).

(** The same price series quoted in another unit: every close is multiplied
    by [k]. *)
Definition scale_closes (k : R) (s : list (timestamp * R))
  : list (timestamp * R) :=
  map (fun p => (fst p, k * snd p)) s.

(** ** The risk rows of the main flow

    [vol1 = calculate_volatility(prices1) if prices1 is not None and not
    prices1.empty else None], likewise for the drawdown, and each pair is
    shown with [display_comparison_metric(..., reverse=True)]. *)

Definition if_has_data (f : option DataFrame -> outcome (option float64))
           (prices : option DataFrame) : outcome (option float64) :=
  match prices with
  | Some (p :: r) => f (Some (p :: r))
  | _ => Return None
  end.

Definition volatility_row (prices1 prices2 : option DataFrame)
  : outcome (option comparison) :=
  bind (if_has_data calculate_volatility prices1) (fun vol1 =>
  bind (if_has_data calculate_volatility prices2) (fun vol2 =>
  Return (display_comparison_metric vol1 vol2 "%" true))).

Definition drawdown_row (prices1 prices2 : option DataFrame)
  : outcome (option comparison) :=
  bind (if_has_data calculate_max_drawdown prices1) (fun max_dd1 =>
  bind (if_has_data calculate_max_drawdown prices2) (fun max_dd2 =>
  Return (display_comparison_metric max_dd1 max_dd2 "%" true))).

(** The opposite badge; [neutral] is its own opposite. *)
Definition flip_badge (b : badge) : badge :=
  match b with
  | positive => negative
  | negative => positive
  | neutral => neutral
  end.

(** ** [get_historical_prices]

    The two calls to the market-data service are parameters: each gives a
    frame of closes, or fails (any exception, a missing [Close] column
    included).  Dates are day numbers, the first day that [datetime] can
    represent being 1 and the last 3652059; date arithmetic that leaves this
    range raises [OverflowError], which the outer handler turns into an
    error message and [None].  The result is the returned value together
    with the flag "an error message was shown". *)

Definition date : Type := Z.

Definition representable (d : date) : bool :=
  ((1 <=? d) && (d <=? 3652059))%Z.

Inductive fetched : Type :=
| Failed
| Fetched (hist : DataFrame).

Section HistoricalPrices.

Variable today : date.
Variable yf_download : string -> date -> date -> fetched.
Variable ticker_history : string -> date -> date -> fetched.

Definition get_historical_prices (symbol : string) (years : Z)
  : option DataFrame * bool :=
  let end_date := (today + 1)%Z in
  let start_date := (end_date - years * 365)%Z in
  if negb (representable end_date && representable start_date)
  then (None, true)
  else
    match yf_download symbol start_date end_date with
    | Fetched (p :: r) => (Some (p :: r), false)
    | _ =>
        match ticker_history symbol start_date end_date with
        | Fetched hist => (Some hist, false)
        | Failed => (None, true)
        end
    end.

(** One row of the CAGR section: both series are fetched again for the
    horizon, and the two results are compared. *)
Definition cagr_row (ticker1 ticker2 : string) (years : Z)
  : outcome (option comparison) :=
  bind (calculate_cagr (fst (get_historical_prices ticker1 years)) years)
       (fun cagr1 =>
  bind (calculate_cagr (fst (get_historical_prices ticker2 years)) years)
       (fun cagr2 =>
  Return (display_comparison_metric cagr1 cagr2 "%" false))).

(** The three rows of the main flow: 1, 3 and 5 years. *)
Definition cagr_section (ticker1 ticker2 : string)
  : list (outcome (option comparison)) :=
  [cagr_row ticker1 ticker2 1; cagr_row ticker1 ticker2 3;
   cagr_row ticker1 ticker2 5].

End HistoricalPrices.

(** ** [get_company_info]

    The [info] dictionary of the service maps field names to values; a value
    is a string, a number or [None].  Fetching it and translating a text are
    parameters that may fail. *)

Inductive pyval : Type :=
| PStr (s : string)
| PNum (x : R)
| PNone.

Definition info_dict : Type := list (string * pyval).

(** [info.get(key, default)] *)
Fixpoint dict_get (info : info_dict) (key : string) (default : pyval)
  : pyval :=
  match info with
  | [] => default
  | (k, v) :: info' =>
      if String.eqb k key then v else dict_get info' key default
  end.

(** A Python string is a sequence of characters (code points); here it is
    its UTF-8 encoding, a sequence of bytes in which every character is one
    leading byte followed by its continuation bytes (those of the form
    [10xxxxxx]). *)
Definition is_continuation (c : Ascii.ascii) : bool :=
  match c with
  | Ascii.Ascii _ _ _ _ _ _ b6 b7 => b7 && negb b6
  end.

(** [len(text)]: the number of characters. *)
Fixpoint char_length (text : string) : nat :=
  match text with
  | EmptyString => 0%nat
  | String c text' =>
      if is_continuation c then char_length text'
      else S (char_length text')
  end.

(** [text[:n]]: the first [n] characters, each with all its bytes. *)
Fixpoint take (n : nat) (text : string) : string :=
  match text with
  | EmptyString => EmptyString
  | String c text' =>
      if is_continuation c then String c (take n text')
      else match n with
           | O => EmptyString
           | S n' => String c (take n' text')
           end
  end.

(** The market capitalisation as shown: [f"${x:.2f}{suffix}"] for a number
    of at least a million, the value as it came otherwise. *)
Inductive cap_display : Type :=
| CapMoney (amount : R) (suffix : string)
| CapRaw (v : pyval).

Definition format_market_cap (market_cap : pyval) : cap_display :=
  match market_cap with
  | PNum x =>
      if Rle_dec 1000000000000 x
      then CapMoney (round2 (x / 1000000000000)) "T"
      else if Rle_dec 1000000000 x
      then CapMoney (round2 (x / 1000000000)) "B"
      else if Rle_dec 1000000 x
      then CapMoney (round2 (x / 1000000)) "M"
      else CapRaw (PNum x)
  | other => CapRaw other
  end.

Record company : Type := mkCompany {
  co_symbol : string;
  co_name : pyval;
  co_sector : pyval;
  co_industry : pyval;
  co_country : pyval;
  co_description : pyval;
  co_market_cap : cap_display;
  co_currency : pyval
}.

Inductive company_info : Type :=
| CompanyError
| Company (c : company).

Section CompanyInfo.

Variable ticker_info : string -> option info_dict.
Variable translate : string -> option string.

(** The inner [try]: a description that is not a string cannot be sliced,
    and a failing translation is ignored; in both cases the description
    stays as it was. *)
Definition translated (description : pyval) : pyval :=
  match description with
  | PStr text =>
      match translate (take 2000 text) with
      | Some spanish => PStr spanish
      | None => description
      end
  | other => other
  end.

Definition get_company_info (symbol : string) : company_info :=
  match ticker_info symbol with
  | None => CompanyError
  | Some info =>
      let company_name :=
        dict_get info "shortName" (dict_get info "longName" (PStr symbol)) in
      let sector := dict_get info "sector" (PStr "Sector no disponible") in
      let industry :=
        dict_get info "industry" (PStr "Industria no disponible") in
      let country := dict_get info "country" (PStr "País no disponible") in
      let description :=
        translated (dict_get info "longBusinessSummary"
                             (PStr "Descripción no disponible.")) in
      let market_cap :=
        format_market_cap (dict_get info "marketCap" (PStr "N/A")) in
      Company (mkCompany symbol company_name sector industry country
                         description market_cap
                         (dict_get info "currency" (PStr "N/A")))
  end.

End CompanyInfo.

(** [key in info] *)
Definition has_key (info : info_dict) (key : string) : bool :=
  existsb (fun kv => String.eqb (fst kv) key) info.

(** A frame without data: [None] or empty. *)
Definition no_data (prices : option DataFrame) : Prop :=
  prices = None \/ prices = Some [].

(** The CAGR formula before rounding. *)
Definition exact_cagr (firstClose lastClose : R) (years : Z) : R :=
  (Rpower (lastClose / firstClose) (1 / IZR years) - 1) * 100.

(** [v] is [x] rounded to two decimals: a whole number of cents that is a
    nearest one to [x].  No rule is fixed for ties, and [float_slack] leaves
    room for the rounding error of the float64 arithmetic that produced the
    value rounded by the program. *)
Definition float_slack : R := 1 / 1000000.

Definition rounded_to_cents (v x : R) : Prop :=
  (exists z : Z, v = IZR z / 100)
  /\ Rabs (v - x) <= 1 / 200 + float_slack.

(** An entry that holds a finite number. *)
Definition is_number (p : timestamp * float64) : Prop :=
  exists x, snd p = Fin x.

(** * Properties *)

(** ** Rounding *)

Section Rounding.

Lemma Int_part_IZR (z : Z) : Int_part (IZR z) = z.
Proof.
  symmetry. apply Int_part_spec. lra.
Qed.

Lemma rint_IZR (z : Z) : rint (IZR z) = z.
Proof.
  unfold rint. rewrite Int_part_IZR.
  destruct (Rlt_dec (IZR z - IZR z) (1 / 2)) as [_ | H]; [reflexivity | lra].
Qed.

Lemma rint_close (x : R) : IZR (rint x) - 1 / 2 <= x <= IZR (rint x) + 1 / 2.
Proof.
  unfold rint.
  destruct (base_Int_part x) as [Hlo Hhi].
  set (n := Int_part x) in *.
  destruct (Rlt_dec (x - IZR n) (1 / 2)) as [Hlt | Hge].
  - lra.
  - destruct (Rlt_dec (1 / 2) (x - IZR n)) as [Hgt | Hle].
    + rewrite plus_IZR. lra.
    + destruct (Z.even n); [lra | rewrite plus_IZR; lra].
Qed.

Lemma round2_close (x : R) : round2 x - 1 / 200 <= x <= round2 x + 1 / 200.
Proof.
  unfold round2. pose proof (rint_close (x * 100)). lra.
Qed.

Lemma round2_cents (z : Z) : round2 (IZR z / 100) = IZR z / 100.
Proof.
  unfold round2. replace (IZR z / 100 * 100) with (IZR z) by lra.
  now rewrite rint_IZR.
Qed.

Lemma round2_0 : round2 0 = 0.
Proof.
  replace 0 with (IZR 0 / 100) by lra. apply round2_cents.
Qed.

Lemma rint_nonpos (x : R) : x <= 0 -> (rint x <= 0)%Z.
Proof.
  intros Hx. pose proof (rint_close x) as [Hlo _].
  assert (H : IZR (rint x) < IZR 1) by lra.
  apply lt_IZR in H. lia.
Qed.

Lemma round2_nonpos (x : R) : x <= 0 -> round2 x <= 0.
Proof.
  intros Hx. unfold round2.
  assert (H : (rint (x * 100) <= 0)%Z) by (apply rint_nonpos; lra).
  apply IZR_le in H. lra.
Qed.

End Rounding.

(** ** Arithmetic on finite values *)

Lemma fdiv_Fin (x y : R) : y <> 0 -> fdiv (Fin x) (Fin y) = Fin (x / y).
Proof.
  intros Hy. unfold fdiv. destruct (Req_dec_T y 0); [contradiction | reflexivity].
Qed.

Lemma fpow_pos (x y : R) : 0 < x -> y <> 0 -> fpow (Fin x) y = Fin (Rpower x y).
Proof.
  intros Hx Hy. unfold fpow.
  destruct (Req_dec_T y 0); [contradiction |].
  destruct (Rlt_dec 0 x); [reflexivity | contradiction].
Qed.

Lemma fsqrt_Fin (x : R) : 0 <= x -> fsqrt (Fin x) = Fin (sqrt x).
Proof.
  intros Hx. unfold fsqrt. destruct (Rlt_dec x 0); [lra | reflexivity].
Qed.

Lemma last_cons_default {A : Type} (l : list A) (a d : A) :
  last (a :: l) d = last l a.
Proof.
  revert a d. induction l as [| b l IH]; intros a d; [reflexivity |].
  change (last (a :: b :: l) d) with (last (b :: l) d).
  now rewrite (IH b d), (IH b a).
Qed.

Lemma last_of_reals (l : list (timestamp * R)) (t : timestamp) (c : R) :
  snd (last (of_reals l) (t, Fin c)) = Fin (snd (last l (t, c))).
Proof.
  induction l as [| p [| q l] IH]; try reflexivity.
  exact IH.
Qed.

(** ** [calculate_cagr] *)

Lemma calculate_cagr_nonempty (t0 : timestamp) (c0 : R)
      (rest : list (timestamp * R)) (years : Z) :
  positive_closes ((t0, c0) :: rest) -> (years <> 0)%Z ->
  calculate_cagr (Some (of_reals ((t0, c0) :: rest))) years =
  Return (Some (Fin (spec_cagr c0 (last_close ((t0, c0) :: rest)) years))).
Proof.
  intros Hpos Hy.
  assert (Hc0 : 0 < c0) by (inversion Hpos; assumption).
  assert (Hlast : 0 < last_close ((t0, c0) :: rest)).
  { unfold last_close.
    destruct (exists_last (l := (t0, c0) :: rest)) as [l' [a Ha]];
      [discriminate |].
    rewrite Ha, last_last.
    unfold positive_closes in Hpos. rewrite Ha in Hpos.
    apply Forall_app in Hpos as [_ Hpos]. now inversion Hpos. }
  assert (Hlast_eq : last_close ((t0, c0) :: rest) = snd (last rest (t0, c0))).
  { unfold last_close. now rewrite last_cons_default. }
  unfold calculate_cagr, of_reals. cbn [map fst snd].
  change (map (fun p => (fst p, Fin (snd p))) rest) with (of_reals rest).
  rewrite last_of_reals, <- Hlast_eq.
  rewrite fdiv_Fin by lra.
  destruct (Z.eqb_spec years 0) as [-> | _]; [contradiction |].
  rewrite fpow_pos.
  - reflexivity.
  - apply Rdiv_lt_0_compat; assumption.
  - assert (IZR years <> 0) by (apply not_0_IZR; assumption).
    unfold Rdiv. rewrite Rmult_1_l. apply Rinv_neq_0_compat; assumption.
Qed.

Lemma round2_rounded_to_cents (x : R) : rounded_to_cents (round2 x) x.
Proof.
  split.
  - exists (rint (x * 100)). reflexivity.
  - pose proof (round2_close x) as [Hlo Hhi].
    unfold float_slack. apply Rabs_le. lra.
Qed.

(** C1.  For a price series with at least two points and [years > 0],
    [calculate_cagr] returns a number that is
    [((lastClose / firstClose) ^ (1 / years) - 1) * 100] rounded to two
    decimals, where the two closes are the first and the last observation;
    and on the closes 100, 110, 121 with [years = 2] it returns 10.00.
    (The closes of a price series are positive, so the first one is not
    zero.  Rounded to two decimals is [rounded_to_cents]: a nearest cent,
    with no rule fixed for ties, because the program rounds a float64 and
    not the exact value.) *)
Theorem calculate_cagr_formula :
  (forall (s : list (timestamp * R)) (years : Z),
      (2 <= length s)%nat -> (0 < years)%Z -> positive_closes s ->
      exists v,
        calculate_cagr (Some (of_reals s)) years = Return (Some (Fin v))
        /\ rounded_to_cents
             v (exact_cagr (first_close s) (last_close s) years))
  /\ calculate_cagr
       (Some (of_reals [(0%Z, 100); (1%Z, 110); (2%Z, 121)])) 2 =
     Return (Some (Fin 10)).
Proof.
  assert (Hgen : forall (s : list (timestamp * R)) (years : Z),
      (2 <= length s)%nat -> (0 < years)%Z -> positive_closes s ->
      calculate_cagr (Some (of_reals s)) years =
      Return (Some (Fin (spec_cagr (first_close s) (last_close s) years)))).
  { intros [| [t0 c0] rest] years Hlen Hy Hpos; [simpl in Hlen; lia |].
    apply calculate_cagr_nonempty; [assumption | lia]. }
  split.
  - intros s years Hlen Hy Hpos.
    exists (spec_cagr (first_close s) (last_close s) years).
    split; [apply Hgen; assumption |].
    apply round2_rounded_to_cents.
  - rewrite Hgen.
    + do 2 f_equal. unfold spec_cagr, first_close, last_close.
      cbn [hd last snd].
      replace (1 / 2) with (/ 2) by lra.
      rewrite Rpower_sqrt by lra.
      rewrite (sqrt_lem_1 (121 / 100) (11 / 10)) by lra.
      replace ((11 / 10 - 1) * 100) with (IZR 1000 / 100) by lra.
      rewrite round2_cents. f_equal. lra.
    + simpl. lia.
    + lia.
    + repeat constructor; simpl; lra.
Qed.

Lemma calculate_cagr_formula_witness :
  exists v,
    calculate_cagr (Some (of_reals [(0%Z, 160); (1%Z, 67)])) 1 =
    Return (Some (Fin v))
    /\ rounded_to_cents v (exact_cagr 160 67 1).
Proof.
  apply (proj1 calculate_cagr_formula [(0%Z, 160); (1%Z, 67)] 1%Z).
  - simpl. lia.
  - lia.
  - repeat constructor; simpl; lra.
Defined.

(** ** Lifting the pandas operations to real-valued series *)

Lemma rint_unique (x : R) (z : Z) :
  IZR z - 1 / 2 < x < IZR z + 1 / 2 -> rint x = z.
Proof.
  intros [Hlo Hhi]. pose proof (rint_close x) as [Hlo' Hhi'].
  assert (H1 : IZR (rint x) < IZR (z + 1)) by (rewrite plus_IZR; lra).
  assert (H2 : IZR (z - 1) < IZR (rint x)) by (rewrite minus_IZR; lra).
  apply lt_IZR in H1, H2. lia.
Qed.

Lemma positive_closes_cons (t : timestamp) (c : R) (s : list (timestamp * R)) :
  positive_closes ((t, c) :: s) <-> 0 < c /\ positive_closes s.
Proof.
  unfold positive_closes. split.
  - intros H. inversion H; subst. split; assumption.
  - intros [Hc Hs]. constructor; assumption.
Qed.

Lemma pct_change_from_of_reals (s : list (timestamp * R)) (prev : R) :
  0 < prev -> positive_closes s ->
  pct_change_from (Fin prev) (of_reals s) = of_reals (returns_from prev s).
Proof.
  revert prev. induction s as [| [t c] s IH]; intros prev Hprev Hpos.
  - reflexivity.
  - apply positive_closes_cons in Hpos as [Hc Hs].
    cbn [of_reals map pct_change_from returns_from fst snd isnan].
    rewrite fdiv_Fin by lra. cbn [fsub].
    f_equal. apply IH; assumption.
Qed.

Lemma pct_change_of_reals (t0 : timestamp) (c0 : R)
      (rest : list (timestamp * R)) :
  positive_closes ((t0, c0) :: rest) ->
  pct_change (of_reals ((t0, c0) :: rest)) =
  (t0, NaN) :: of_reals (returns_from c0 rest).
Proof.
  intros Hpos. apply positive_closes_cons in Hpos as [Hc Hs].
  unfold pct_change.
  cbn [of_reals map pct_change_from fst snd isnan fdiv fsub].
  f_equal. apply pct_change_from_of_reals; assumption.
Qed.

Lemma dropna_of_reals (s : list (timestamp * R)) :
  dropna (of_reals s) = of_reals s.
Proof.
  unfold dropna. induction s as [| [t c] s IH]; [reflexivity |].
  cbn [of_reals map filter notna fst snd isnan negb]. f_equal. exact IH.
Qed.

Lemma values_of_reals (s : list (timestamp * R)) :
  values (of_reals s) = map Fin (map snd s).
Proof.
  unfold values, of_reals. rewrite !map_map. reflexivity.
Qed.

Lemma index_of_reals (s : list (timestamp * R)) :
  index (of_reals s) = map fst s.
Proof.
  unfold index, of_reals. rewrite map_map. reflexivity.
Qed.

Lemma filter_notnan_Fin (l : list R) :
  filter (fun x => negb (isnan x)) (map Fin l) = map Fin l.
Proof.
  induction l as [| x l IH]; [reflexivity |].
  cbn [map filter isnan negb]. f_equal. exact IH.
Qed.

Lemma fsum_Fin (l : list R) : fsum (map Fin l) = Fin (Rsum l).
Proof.
  induction l as [| x l IH]; [reflexivity |].
  cbn [map fsum fold_right]. fold (fsum (map Fin l)). rewrite IH. reflexivity.
Qed.

Lemma Rsum_nonneg (l : list R) : Forall (fun x => 0 <= x) l -> 0 <= Rsum l.
Proof.
  induction 1 as [| x l Hx _ IH]; cbn [Rsum fold_right]; [lra |].
  fold (Rsum l). lra.
Qed.

Lemma sum_sq_dev_nonneg (l : list R) : 0 <= sum_sq_dev l.
Proof.
  unfold sum_sq_dev. apply Rsum_nonneg.
  apply Forall_forall. intros y Hy. apply in_map_iff in Hy as [x [<- _]].
  exact (Rle_0_sqr (Rmean l - x)).
Qed.

Lemma nanvar_Fin (ddof : nat) (l : list R) :
  (ddof < length l)%nat ->
  nanvar ddof (map Fin l) = Fin (sum_sq_dev l / INR (length l - ddof)).
Proof.
  intros Hlen. unfold nanvar.
  rewrite filter_notnan_Fin, length_map.
  destruct (Nat.leb_spec (length l) ddof) as [H | _]; [lia |].
  rewrite fsum_Fin.
  rewrite fdiv_Fin by (apply not_0_INR; lia).
  rewrite map_map. cbn [fsub fmul].
  rewrite <- (map_map (fun x => (Rsum l / INR (length l) - x)
                                * (Rsum l / INR (length l) - x)) Fin).
  rewrite fsum_Fin.
  rewrite fdiv_Fin by (apply not_0_INR; lia).
  reflexivity.
Qed.

Lemma nanstd_Fin (ddof : nat) (l : list R) :
  (ddof < length l)%nat ->
  nanstd ddof (map Fin l) =
  Fin (sqrt (sum_sq_dev l / INR (length l - ddof))).
Proof.
  intros Hlen. unfold nanstd. rewrite nanvar_Fin by assumption.
  apply fsqrt_Fin.
  apply Rmult_le_pos; [apply sum_sq_dev_nonneg |].
  apply Rlt_le, Rinv_0_lt_compat, lt_0_INR. lia.
Qed.

Lemma nanstd_too_short (ddof : nat) (l : list R) :
  (length l <= ddof)%nat -> nanstd ddof (map Fin l) = NaN.
Proof.
  intros Hlen. unfold nanstd, nanvar.
  rewrite filter_notnan_Fin, length_map.
  destruct (Nat.leb_spec (length l) ddof) as [_ | H]; [reflexivity | lia].
Qed.

Lemma fsqrt_252 : fsqrt (Fin 252) = Fin (sqrt 252).
Proof. apply fsqrt_Fin. lra. Qed.

Lemma length_returns_from (prev : R) (s : list (timestamp * R)) :
  length (returns_from prev s) = length s.
Proof.
  revert prev. induction s as [| [t c] s IH]; intros prev; [reflexivity |].
  cbn [returns_from length]. now rewrite IH.
Qed.

(** ** [calculate_volatility] *)

(** On a price series with at least two points the function computes the
    population standard deviation of the returns, annualised and rounded. *)
Lemma calculate_volatility_population (s : list (timestamp * R)) :
  (2 <= length s)%nat -> positive_closes s ->
  calculate_volatility (Some (of_reals s)) =
  Return (Some (Fin (round2 (annualize
                               (population_std (map snd (returns_of s))))))).
Proof.
  intros Hlen Hpos.
  destruct s as [| [t0 c0] rest]; [simpl in Hlen; lia |].
  unfold calculate_volatility.
  change (of_reals ((t0, c0) :: rest))
    with ((t0, Fin c0) :: of_reals rest) at 1.
  cbv iota beta.
  change ((t0, Fin c0) :: of_reals rest) with (of_reals ((t0, c0) :: rest)).
  rewrite pct_change_of_reals by assumption.
  unfold dropna. cbn [filter notna snd isnan negb].
  fold (dropna (of_reals (returns_from c0 rest))).
  rewrite dropna_of_reals.
  unfold np_std. rewrite values_of_reals.
  rewrite nanstd_Fin
    by (rewrite length_map, length_returns_from; simpl in Hlen; lia).
  rewrite fsqrt_252. cbn [fmul fround2].
  unfold population_std, annualize, returns_of.
  rewrite Nat.sub_0_r. reflexivity.
Qed.


(** ** When the metrics are absent *)




(** C4, as the code has it.  [calculate_volatility] never raises, and it
    returns absent exactly when the price frame is missing or empty. *)
Theorem calculate_volatility_absent (prices : option DataFrame) :
  (exists r, calculate_volatility prices = Return r)
  /\ (calculate_volatility prices = Return None <->
      prices = None \/ prices = Some []).
Proof.
  split.
  - destruct prices as [[| p rest] |]; eexists; reflexivity.
  - split.
    + destruct prices as [[| p rest] |]; auto. discriminate.
    + intros [-> | ->]; reflexivity.
Qed.

Lemma calculate_volatility_absent_witness :
  calculate_volatility (Some []) = Return None.
Proof.
  apply (proj2 (calculate_volatility_absent (Some []))). right. reflexivity.
Defined.

(** C4 fails as stated: fewer than two returns are available on a
    one-point and on a two-point series, and the function returns NaN on the
    first and 0.00 on the second, not absent. *)
Lemma calculate_volatility_short_counterexample :
  calculate_volatility (Some (of_reals [(0%Z, 100)])) = Return (Some NaN)
  /\ calculate_volatility (Some (of_reals [(0%Z, 100); (1%Z, 110)])) =
     Return (Some (Fin 0)).
Proof.
  split; [reflexivity |].
  rewrite calculate_volatility_population;
    [| simpl; lia | repeat constructor; simpl; lra].
  do 3 f_equal.
  unfold annualize, population_std, sum_sq_dev, Rmean, returns_of.
  cbn [returns_from map snd Rsum fold_right length INR].
  replace ((_ + 0) / 1) with 0 by lra.
  rewrite sqrt_0. replace (0 * sqrt 252 * 100) with 0 by lra.
  apply round2_0.
Qed.

(** ** Normalisation *)

Lemma series_map_of_reals (f : float64 -> float64) (g : R -> R)
      (s : list (timestamp * R)) :
  (forall p, In p s -> f (Fin (snd p)) = Fin (g (snd p))) ->
  series_map f (of_reals s) = of_reals (map (fun p => (fst p, g (snd p))) s).
Proof.
  intros Hfg. unfold series_map, of_reals. rewrite !map_map.
  apply map_ext_in. intros p Hp. cbn [fst snd]. now rewrite Hfg.
Qed.

Lemma normalize_of_reals (s : list (timestamp * R)) :
  s <> [] -> first_close s <> 0 ->
  normalize (of_reals s) = Return (of_reals (spec_normalize s)).
Proof.
  intros Hne Hc0. destruct s as [| [t0 c0] rest]; [contradiction |].
  unfold first_close in Hc0. cbn [hd snd] in Hc0.
  unfold normalize.
  change (of_reals ((t0, c0) :: rest))
    with ((t0, Fin c0) :: of_reals rest) at 1.
  cbv iota beta.
  change ((t0, Fin c0) :: of_reals rest) with (of_reals ((t0, c0) :: rest)).
  f_equal. unfold spec_normalize, first_close. cbn [hd snd].
  apply (series_map_of_reals _ (fun c => c / c0 * 100)). intros p _.
  rewrite fdiv_Fin by assumption. reflexivity.
Qed.

Lemma first_close_spec_normalize (s : list (timestamp * R)) :
  s <> [] -> first_close s <> 0 -> first_close (spec_normalize s) = 100.
Proof.
  intros Hne Hc0. destruct s as [| [t0 c0] rest]; [contradiction |].
  unfold first_close in *. cbn [spec_normalize map hd fst snd] in *.
  unfold first_close. cbn [hd snd]. field. assumption.
Qed.

Lemma spec_normalize_idempotent (s : list (timestamp * R)) :
  s <> [] -> first_close s <> 0 ->
  spec_normalize (spec_normalize s) = spec_normalize s.
Proof.
  intros Hne Hc0.
  unfold spec_normalize at 1.
  rewrite first_close_spec_normalize by assumption.
  unfold spec_normalize. rewrite map_map.
  apply map_ext. intros [t c]. cbn [fst snd]. f_equal. field. assumption.
Qed.

(** C8.  On a non-empty price series whose first close is not zero,
    [normalize] returns the series [close_t / close_0 * 100]; its first
    element is exactly 100; and normalising the normalised series gives the
    same series again. *)
Theorem normalize_rebases (s : list (timestamp * R)) :
  s <> [] -> first_close s <> 0 ->
  normalize (of_reals s) =
    Return (of_reals (map (fun p => (fst p, snd p / first_close s * 100)) s))
  /\ (exists t0 rest,
         normalize (of_reals s) = Return ((t0, Fin 100) :: rest))
  /\ bind (normalize (of_reals s)) normalize = normalize (of_reals s).
Proof.
  intros Hne Hc0.
  pose proof (normalize_of_reals s Hne Hc0) as Hnorm.
  split; [exact Hnorm |]. split.
  - rewrite Hnorm.
    pose proof (first_close_spec_normalize s Hne Hc0) as H100.
    destruct s as [| [t0 c0] rest]; [contradiction |].
    exists t0, (of_reals (map (fun p => (fst p, snd p / c0 * 100)) rest)).
    f_equal. unfold first_close in H100.
    cbn [spec_normalize map hd fst snd of_reals first_close] in *.
    now rewrite H100.
  - rewrite Hnorm. cbn [bind].
    rewrite normalize_of_reals.
    + now rewrite spec_normalize_idempotent.
    + unfold spec_normalize. destruct s; [contradiction | discriminate].
    + rewrite first_close_spec_normalize by assumption. lra.
Qed.

Lemma normalize_rebases_witness :
  normalize (of_reals [(0%Z, 50); (1%Z, 75)]) =
  Return (of_reals [(0%Z, 50 / 50 * 100); (1%Z, 75 / 50 * 100)]).
Proof.
  apply (normalize_rebases [(0%Z, 50); (1%Z, 75)]).
  - discriminate.
  - unfold first_close. cbn [hd snd]. lra.
Defined.

(** C10.  On a non-empty frame [normalize] returns one point per input
    point, at the same timestamps in the same order; each value is the
    input value divided by the first one and multiplied by 100. *)
Theorem normalize_preserves_shape (prices : DataFrame) :
  prices <> [] ->
  exists out,
    normalize prices = Return out
    /\ length out = length prices
    /\ index out = index prices
    /\ values out =
       map (fun c => fmul (fdiv c (snd (hd (0%Z, NaN) prices))) (Fin 100))
           (values prices).
Proof.
  intros Hne. destruct prices as [| [t0 c0] rest]; [contradiction |].
  eexists. split; [reflexivity |].
  unfold series_map, index, values. cbn [hd snd].
  rewrite length_map, !map_map. cbn [fst snd].
  repeat split; try reflexivity.
Qed.

Lemma normalize_preserves_shape_witness :
  exists out,
    normalize [(3%Z, Fin 50); (7%Z, Fin 75)] = Return out
    /\ index out = [3%Z; 7%Z].
Proof.
  destruct (normalize_preserves_shape [(3%Z, Fin 50); (7%Z, Fin 75)])
    as [out [Hout [_ [Hidx _]]]]; [discriminate |].
  exists out. split; assumption.
Defined.

(** ** [display_comparison_metric] *)

(** C9.  For two present values the badge is classified by
    [diff = value1 - value2]: a positive difference is [positive]
    (favourable) unless [reverse], then [negative] (unfavourable); a
    negative difference is the mirror; a zero difference is [neutral]
    whatever [reverse] is.  Nothing is rendered when either value is
    absent.  With 10 and 5 the badge is [positive], and [negative] when
    reversed. *)
Theorem display_comparison_metric_classifies :
  (forall (v1 v2 : float64) (unit : string) (reverse : bool),
      exists c,
        display_comparison_metric (Some v1) (Some v2) unit reverse = Some c
        /\ diff c = fsub v1 v2
        /\ (fgt (diff c) (Fin 0) = true ->
            badge_class c = if reverse then negative else positive)
        /\ (flt (diff c) (Fin 0) = true ->
            badge_class c = if reverse then positive else negative)
        /\ (diff c = Fin 0 -> badge_class c = neutral))
  /\ (forall v1 v2 unit reverse,
         v1 = None \/ v2 = None ->
         display_comparison_metric v1 v2 unit reverse = None)
  /\ (exists c, display_comparison_metric (Some (Fin 10)) (Some (Fin 5))
                                          "%" false = Some c
                /\ badge_class c = positive /\ diff c = Fin 5)
  /\ (exists c, display_comparison_metric (Some (Fin 10)) (Some (Fin 5))
                                          "%" true = Some c
                /\ badge_class c = negative).
Proof.
  assert (Hgen : forall (v1 v2 : float64) (unit : string) (reverse : bool),
      exists c,
        display_comparison_metric (Some v1) (Some v2) unit reverse = Some c
        /\ diff c = fsub v1 v2
        /\ (fgt (diff c) (Fin 0) = true ->
            badge_class c = if reverse then negative else positive)
        /\ (flt (diff c) (Fin 0) = true ->
            badge_class c = if reverse then positive else negative)
        /\ (diff c = Fin 0 -> badge_class c = neutral)).
  { intros v1 v2 unit reverse. unfold display_comparison_metric.
    destruct (fgt (fsub v1 v2) (Fin 0)) eqn:Hgt.
    - eexists. split; [reflexivity |]. cbn [diff badge_class].
      split; [reflexivity |]. repeat split.
      + intros _. now destruct reverse.
      + intros Hlt. exfalso. unfold fgt in Hgt.
        destruct (fsub v1 v2) as [d | [|] |]; cbn [flt] in *;
          try discriminate.
        destruct (Rlt_dec 0 d), (Rlt_dec d 0); try discriminate; lra.
      + intros H0. rewrite H0 in Hgt. unfold fgt in Hgt. cbn [flt] in Hgt.
        destruct (Rlt_dec 0 0); [lra | discriminate].
    - destruct (flt (fsub v1 v2) (Fin 0)) eqn:Hlt.
      + eexists. split; [reflexivity |]. cbn [diff badge_class].
        split; [reflexivity |]. repeat split.
        * rewrite Hgt. discriminate.
        * intros _. now destruct reverse.
        * intros H0. rewrite H0 in Hlt. cbn [flt] in Hlt.
          destruct (Rlt_dec 0 0); [lra | discriminate].
      + eexists. split; [reflexivity |]. cbn [diff badge_class].
        split; [reflexivity |]. repeat split.
        * rewrite Hgt. discriminate.
        * rewrite Hlt. discriminate.  }
  split; [exact Hgen |]. split.
  - intros v1 v2 unit reverse [-> | ->]; [reflexivity |].
    now destruct v1.
  - assert (H105 : fsub (Fin 10) (Fin 5) = Fin 5) by (cbn [fsub]; f_equal; lra).
    assert (Hpos : fgt (Fin 5) (Fin 0) = true).
    { unfold fgt. cbn [flt]. destruct (Rlt_dec 0 5); [reflexivity | lra]. }
    split.
    + destruct (Hgen (Fin 10) (Fin 5) "%"%string false)
        as [c [Hc [Hd [Hp _]]]].
      exists c. rewrite Hd, H105 in Hp. rewrite Hd, H105.
      repeat split; auto.
    + destruct (Hgen (Fin 10) (Fin 5) "%"%string true)
        as [c [Hc [Hd [Hp _]]]].
      exists c. rewrite Hd, H105 in Hp. split; auto.
Qed.

Lemma display_comparison_metric_classifies_witness :
  display_comparison_metric None (Some (Fin 5)) "%" true = None
  /\ exists c,
      display_comparison_metric (Some (Fin 3)) (Some (Fin 1)) "%" true =
      Some c
      /\ badge_class c = negative.
Proof.
  split.
  - apply (proj1 (proj2 display_comparison_metric_classifies)).
    left. reflexivity.
  - destruct (proj1 display_comparison_metric_classifies
                    (Fin 3) (Fin 1) "%"%string true)
      as [c [Hc [Hd [Hp _]]]].
    exists c. split; [exact Hc |]. apply Hp. rewrite Hd.
    unfold fgt. cbn [fsub flt].
    destruct (Rlt_dec 0 (3 - 1)); [reflexivity | lra].
Defined.

(** ** [calculate_max_drawdown] *)

Lemma add1_of_reals (l : list (timestamp * R)) :
  add1 (of_reals l) = of_reals (map (fun p => (fst p, snd p + 1)) l).
Proof.
  unfold add1, of_reals. rewrite !map_map. reflexivity.
Qed.

Lemma cumprod_from_of_reals (l : list (timestamp * R)) (acc : R) :
  cumprod_from (Fin acc) (of_reals l) = of_reals (Rcumprod_from acc l).
Proof.
  revert acc. induction l as [| [t x] l IH]; intros acc; [reflexivity |].
  cbn [of_reals map cumprod_from Rcumprod_from fst snd isnan fmul].
  f_equal. apply IH.
Qed.

Lemma fmax_Fin (m x : R) : fmax (Fin m) (Fin x) = Fin (Rmax m x).
Proof.
  unfold fmax, flt, Rmax.
  destruct (Rlt_dec m x), (Rle_dec m x); f_equal; lra.
Qed.

Lemma expanding_max_first (t : timestamp) (g : R) (s : Series) :
  expanding_max_from None ((t, Fin g) :: s) =
  expanding_max_from (Some (Fin g)) ((t, Fin g) :: s).
Proof.
  cbn [expanding_max_from isnan]. rewrite fmax_Fin.
  unfold Rmax. destruct (Rle_dec g g); reflexivity.
Qed.

Lemma drawdowns_from_of_reals (g : list (timestamp * R)) (m : R) :
  0 < m -> positive_closes g ->
  series_map (fun x => fmul (fsub x (Fin 1)) (Fin 100))
             (series_zip fdiv (of_reals g)
                         (expanding_max_from (Some (Fin m)) (of_reals g))) =
  of_reals (Rdrawdowns_from m g).
Proof.
  revert m. induction g as [| [t x] g IH]; intros m Hm Hpos; [reflexivity |].
  apply positive_closes_cons in Hpos as [Hx Hg].
  assert (HM : 0 < Rmax m x) by (apply Rmax_case; assumption).
  cbn [of_reals map fst snd expanding_max_from isnan].
  rewrite fmax_Fin.
  cbn [series_zip series_map map fst snd Rdrawdowns_from].
  rewrite fdiv_Fin by lra. cbn [fsub fmul].
  change (of_reals ((t, (x / Rmax m x - 1) * 100)
                      :: Rdrawdowns_from (Rmax m x) g))
    with ((t, Fin ((x / Rmax m x - 1) * 100))
            :: of_reals (Rdrawdowns_from (Rmax m x) g)).
  f_equal. exact (IH _ HM Hg).
Qed.

Lemma growth_positive (rest : list (timestamp * R)) (prev acc : R) :
  0 < prev -> 0 < acc -> positive_closes rest ->
  positive_closes
    (Rcumprod_from acc
       (map (fun p => (fst p, snd p + 1)) (returns_from prev rest))).
Proof.
  revert prev acc.
  induction rest as [| [t c] rest IH]; intros prev acc Hprev Hacc Hpos.
  - constructor.
  - apply positive_closes_cons in Hpos as [Hc Hrest].
    cbn [returns_from map Rcumprod_from fst snd].
    assert (Hf : 0 < acc * (c / prev - 1 + 1)).
    { replace (c / prev - 1 + 1) with (c / prev) by lra.
      apply Rmult_lt_0_compat; [assumption |].
      apply Rdiv_lt_0_compat; assumption. }
    apply positive_closes_cons. split; [exact Hf |].
    apply IH; assumption.
Qed.

Lemma growth_nondecreasing (rest : list (timestamp * R)) (prev acc : R) :
  0 < prev -> 0 < acc -> nondecreasing_from prev rest ->
  nondecreasing_from acc
    (Rcumprod_from acc
       (map (fun p => (fst p, snd p + 1)) (returns_from prev rest))).
Proof.
  revert prev acc.
  induction rest as [| [t c] rest IH]; intros prev acc Hprev Hacc Hmono.
  - exact I.
  - destruct Hmono as [Hle Hmono].
    cbn [returns_from map Rcumprod_from fst snd nondecreasing_from].
    assert (Hratio : 1 <= c / prev).
    { apply (Rmult_le_reg_r prev); [assumption |].
      unfold Rdiv. rewrite Rmult_assoc, Rinv_l by lra. lra. }
    assert (Hf : acc <= acc * (c / prev - 1 + 1)).
    { replace (c / prev - 1 + 1) with (c / prev) by lra.
      rewrite <- (Rmult_1_r acc) at 1.
      apply Rmult_le_compat_l; lra. }
    split; [exact Hf |].
    apply IH; [lra | lra | assumption].
Qed.

Lemma Rdrawdowns_from_nonpos (g : list (timestamp * R)) (m : R) :
  0 < m -> positive_closes g ->
  Forall (fun p => snd p <= 0) (Rdrawdowns_from m g).
Proof.
  revert m. induction g as [| [t x] g IH]; intros m Hm Hpos; [constructor |].
  apply positive_closes_cons in Hpos as [Hx Hg].
  assert (HM : 0 < Rmax m x) by (apply Rmax_case; assumption).
  cbn [Rdrawdowns_from]. constructor.
  - cbn [snd]. pose proof (Rmax_r m x) as Hle.
    assert (x / Rmax m x <= 1).
    { apply (Rmult_le_reg_r (Rmax m x)); [assumption |].
      unfold Rdiv. rewrite Rmult_assoc, Rinv_l by lra. lra. }
    lra.
  - apply IH; assumption.
Qed.

Lemma Rdrawdowns_from_flat (g : list (timestamp * R)) (m : R) :
  0 < m -> nondecreasing_from m g ->
  Forall (fun p => snd p = 0) (Rdrawdowns_from m g).
Proof.
  revert m. induction g as [| [t x] g IH]; intros m Hm Hmono; [constructor |].
  destruct Hmono as [Hle Hmono].
  assert (HM : Rmax m x = x) by (apply Rmax_right; assumption).
  cbn [Rdrawdowns_from]. rewrite HM. constructor.
  - cbn [snd]. unfold Rdiv. rewrite Rinv_r by lra. lra.
  - apply IH; [lra | assumption].
Qed.

Lemma length_Rdrawdowns_from (g : list (timestamp * R)) (m : R) :
  length (Rdrawdowns_from m g) = length g.
Proof.
  revert m. induction g as [| [t x] g IH]; intros m; [reflexivity |].
  cbn [Rdrawdowns_from length]. now rewrite IH.
Qed.

Lemma length_Rcumprod_from (l : list (timestamp * R)) (acc : R) :
  length (Rcumprod_from acc l) = length l.
Proof.
  revert acc. induction l as [| [t x] l IH]; intros acc; [reflexivity |].
  cbn [Rcumprod_from length]. now rewrite IH.
Qed.

Lemma drawdown_series_of_reals (t0 : timestamp) (c0 : R)
      (rest : list (timestamp * R)) :
  positive_closes ((t0, c0) :: rest) ->
  drawdown_series (of_reals ((t0, c0) :: rest)) =
  (t0, NaN) :: of_reals (Rdrawdowns (growth_of ((t0, c0) :: rest))).
Proof.
  intros Hpos. pose proof Hpos as Hpos'.
  apply positive_closes_cons in Hpos' as [Hc0 Hrest].
  unfold drawdown_series. rewrite pct_change_of_reals by assumption.
  unfold add1. cbn [map fst snd fadd].
  fold (add1 (of_reals (returns_from c0 rest))). rewrite add1_of_reals.
  unfold cumprod. cbn [cumprod_from isnan]. rewrite cumprod_from_of_reals.
  unfold growth_of, returns_of.
  pose proof (growth_positive rest c0 1 Hc0 Rlt_0_1 Hrest) as Hg.
  set (g := Rcumprod_from 1 _) in *.
  unfold expanding_max. cbn [expanding_max_from isnan].
  cbn [series_zip series_map map fst snd fdiv fsub fmul]. f_equal.
  destruct g as [| [t1 g1] g']; [reflexivity |].
  change (of_reals ((t1, g1) :: g')) with ((t1, Fin g1) :: of_reals g').
  rewrite expanding_max_first.
  change ((t1, Fin g1) :: of_reals g') with (of_reals ((t1, g1) :: g')).
  fold (series_map (fun x => fmul (fsub x (Fin 1)) (Fin 100))
          (series_zip fdiv (of_reals ((t1, g1) :: g'))
             (expanding_max_from (Some (Fin g1))
                (of_reals ((t1, g1) :: g'))))).
  apply drawdowns_from_of_reals; [| assumption].
  apply positive_closes_cons in Hg. tauto.
Qed.

Lemma fold_fmin_Fin (l : list R) (a : R) :
  exists v, fold_left fmin (map Fin l) (Fin a) = Fin v
            /\ v <= a /\ (v = a \/ In v l).
Proof.
  revert a. induction l as [| b l IH]; intros a.
  - exists a. cbn. split; [reflexivity |]. split; [lra | now left].
  - cbn [map fold_left]. unfold fmin at 2. cbn [flt].
    destruct (Rlt_dec b a) as [Hlt | Hge].
    + destruct (IH b) as [v [Hv [Hle Hin]]]. exists v.
      split; [exact Hv |]. split; [lra |].
      right. destruct Hin as [-> | Hin]; [now left | now right].
    + destruct (IH a) as [v [Hv [Hle Hin]]]. exists v.
      split; [exact Hv |]. split; [exact Hle |].
      destruct Hin as [-> | Hin]; [now left | right; now right].
Qed.

(** C5.  On a price series with at least two points (positive closes) the
    value [calculate_max_drawdown] returns is a number [<= 0], and it is
    exactly 0.00 when the series never declines. *)
Theorem calculate_max_drawdown_nonpositive (s : list (timestamp * R)) :
  (2 <= length s)%nat -> positive_closes s ->
  exists v,
    calculate_max_drawdown (Some (of_reals s)) = Return (Some (Fin v))
    /\ v <= 0
    /\ (nondecreasing s -> v = 0).
Proof.
  intros Hlen Hpos.
  destruct s as [| [t0 c0] [| [t1 c1] rest]]; try (simpl in Hlen; lia).
  pose proof Hpos as Hpos'.
  apply positive_closes_cons in Hpos' as [Hc0 Hrest].
  unfold calculate_max_drawdown.
  change (of_reals ((t0, c0) :: (t1, c1) :: rest))
    with ((t0, Fin c0) :: of_reals ((t1, c1) :: rest)) at 1.
  cbv iota beta.
  change ((t0, Fin c0) :: of_reals ((t1, c1) :: rest))
    with (of_reals ((t0, c0) :: (t1, c1) :: rest)).
  rewrite drawdown_series_of_reals by assumption.
  pose proof (growth_positive _ c0 1 Hc0 Rlt_0_1 Hrest) as Hg.
  assert (Hmono_g : nondecreasing ((t0, c0) :: (t1, c1) :: rest) ->
                    nondecreasing_from 1 (growth_of ((t0, c0) :: (t1, c1) :: rest))).
  { intros Hmono. apply growth_nondecreasing; [assumption | lra | exact Hmono]. }
  change (positive_closes (growth_of ((t0, c0) :: (t1, c1) :: rest))) in Hg.
  assert (Hglen : length (growth_of ((t0, c0) :: (t1, c1) :: rest)) = S (length rest)).
  { unfold growth_of, returns_of.
    rewrite length_Rcumprod_from, length_map, length_returns_from.
    reflexivity. }
  destruct (growth_of ((t0, c0) :: (t1, c1) :: rest)) as [| [tg g1] g'] eqn:Eg;
    [discriminate |].
  pose proof Hg as Hg'. apply positive_closes_cons in Hg' as [Hg1 _].
  pose proof (Rdrawdowns_from_nonpos _ g1 Hg1 Hg) as Hnonpos.
  assert (Hflat : nondecreasing ((t0, c0) :: (t1, c1) :: rest) ->
                  Forall (fun p => snd p = 0)
                         (Rdrawdowns_from g1 ((tg, g1) :: g'))).
  { intros Hmono. apply Rdrawdowns_from_flat; [assumption |].
    destruct (Hmono_g Hmono) as [_ Hrest_g]. split; [lra | exact Hrest_g]. }
  cbn [Rdrawdowns].
  destruct (Rdrawdowns_from g1 ((tg, g1) :: g')) as [| [td d1] ds] eqn:Ed;
    [discriminate |].
  cbn [values map snd]. fold (values (of_reals ((td, d1) :: ds))).
  rewrite values_of_reals.
  unfold nanmin. cbn [filter isnan negb]. rewrite filter_notnan_Fin.
  cbn [map snd].
  destruct (fold_fmin_Fin (map snd ds) d1) as [v [Hv [Hle Hin]]].
  rewrite Hv. cbn [fround2].
  exists (round2 v). split; [reflexivity |].
  assert (Hd1 : d1 <= 0) by (inversion Hnonpos; assumption).
  split.
  - apply round2_nonpos. lra.
  - intros Hmono. specialize (Hflat Hmono).
    assert (Hv0 : v = 0).
    { inversion Hflat as [| p l Hp0 Hl0]; subst. cbn [snd] in Hp0.
      destruct Hin as [-> | Hin]; [assumption |].
      apply in_map_iff in Hin as [p [<- Hp]].
      rewrite Forall_forall in Hl0. now apply Hl0. }
    rewrite Hv0. apply round2_0.
Qed.

Lemma calculate_max_drawdown_nonpositive_witness :
  exists v,
    calculate_max_drawdown
      (Some (of_reals [(0%Z, 100); (1%Z, 110); (2%Z, 121)])) =
    Return (Some (Fin v)) /\ v <= 0 /\ v = 0.
Proof.
  destruct (calculate_max_drawdown_nonpositive
              [(0%Z, 100); (1%Z, 110); (2%Z, 121)])
    as [v [Hv [Hle Hzero]]].
  - simpl. lia.
  - repeat constructor; simpl; lra.
  - exists v. split; [exact Hv |]. split; [exact Hle |].
    apply Hzero. cbn [nondecreasing nondecreasing_from]. lra.
Defined.

(** ** Rolling volatility *)

Lemma length_lastn {A : Type} (n : nat) (l : list A) :
  length (lastn n l) = Nat.min n (length l).
Proof.
  unfold lastn. rewrite length_skipn. lia.
Qed.

Lemma lastn_map {A B : Type} (f : A -> B) (n : nat) (l : list A) :
  lastn n (map f l) = map f (lastn n l).
Proof.
  unfold lastn. now rewrite length_map, skipn_map.
Qed.

Lemma rolling_std_from_of_reals (w : nat) (r : list (timestamp * R))
      (seen : list R) :
  (2 <= w)%nat ->
  series_map (fun x => fmul (fmul x (fsqrt (Fin 252))) (Fin 100))
             (rolling_std_from w (map Fin seen) (of_reals r)) =
  rolling_spec_from w seen r.
Proof.
  intros Hw. revert seen.
  induction r as [| [t x] r IH]; intros seen; [reflexivity |].
  cbn [of_reals map fst snd rolling_std_from rolling_spec_from].
  change [Fin x] with (map Fin [x]).
  rewrite <- map_app, lastn_map, filter_notnan_Fin, length_map.
  cbn [series_map map fst snd].
  fold (of_reals r).
  fold (series_map (fun x => fmul (fmul x (fsqrt (Fin 252))) (Fin 100))
          (rolling_std_from w (map Fin (seen ++ [x])) (of_reals r))).
  rewrite IH. f_equal. f_equal.
  destruct (Nat.ltb_spec (length (lastn w (seen ++ [x]))) w) as [Hlt | Hge].
  - reflexivity.
  - rewrite nanstd_Fin by lia. rewrite fsqrt_252. reflexivity.
Qed.

Lemma rolling_vol_of_reals (s : list (timestamp * R)) :
  positive_closes s ->
  rolling_vol (of_reals s) = rolling_spec_from window [] (returns_of s).
Proof.
  intros Hpos. unfold rolling_vol, rolling_std.
  destruct s as [| [t0 c0] rest]; [reflexivity |].
  rewrite pct_change_of_reals by assumption.
  unfold dropna. cbn [filter notna snd isnan negb].
  fold (dropna (of_reals (returns_from c0 rest))).
  rewrite dropna_of_reals.
  apply (rolling_std_from_of_reals window _ []). unfold window. lia.
Qed.

Lemma length_rolling_spec_from (w : nat) (r : list (timestamp * R))
      (seen : list R) :
  length (rolling_spec_from w seen r) = length r.
Proof.
  revert seen. induction r as [| [t x] r IH]; intros seen; [reflexivity |].
  cbn [rolling_spec_from length]. now rewrite IH.
Qed.

Lemma index_rolling_spec_from (w : nat) (r : list (timestamp * R))
      (seen : list R) :
  index (rolling_spec_from w seen r) = map fst r.
Proof.
  revert seen. induction r as [| [t x] r IH]; intros seen; [reflexivity |].
  unfold index in *. cbn [rolling_spec_from map fst]. now rewrite IH.
Qed.

Lemma valid_rolling_spec_from (w : nat) (r : list (timestamp * R))
      (seen : list R) :
  length (dropna (rolling_spec_from w seen r)) =
  (length r - Nat.min (length r) (w - 1 - length seen))%nat.
Proof.
  revert seen. induction r as [| [t x] r IH]; intros seen; [reflexivity |].
  cbn [rolling_spec_from]. unfold dropna in *. cbn [filter notna snd].
  rewrite length_lastn, length_app. cbn [length].
  destruct (Nat.ltb_spec (Nat.min w (length seen + 1)) w) as [Hlt | Hge];
    cbn [notna snd isnan negb length]; rewrite IH, length_app;
    cbn [length]; lia.
Qed.

Lemma missing_rolling_spec_from (w : nat) (r : list (timestamp * R))
      (seen : list R) :
  (length seen + length r < w)%nat ->
  Forall (fun p => snd p = NaN) (rolling_spec_from w seen r).
Proof.
  revert seen. induction r as [| [t x] r IH]; intros seen Hlen;
    [constructor |].
  cbn [length] in Hlen. cbn [rolling_spec_from]. constructor.
  - cbn [snd]. rewrite length_lastn, length_app. cbn [length].
    destruct (Nat.ltb_spec (Nat.min w (length seen + 1)) w); [reflexivity | lia].
  - apply IH. rewrite length_app. cbn [length]. lia.
Qed.

Lemma split_rolling_spec_from (w : nat) (r : list (timestamp * R))
      (seen : list R) :
  Forall (fun p => snd p = NaN)
         (firstn (w - 1 - length seen) (rolling_spec_from w seen r))
  /\ Forall is_number
            (skipn (w - 1 - length seen) (rolling_spec_from w seen r)).
Proof.
  revert seen. induction r as [| [t x] r IH]; intros seen.
  - cbn [rolling_spec_from]. rewrite firstn_nil, skipn_nil.
    split; constructor.
  - cbn [rolling_spec_from].
    specialize (IH (seen ++ [x])). rewrite length_app in IH.
    cbn [length] in IH. rewrite length_lastn, length_app. cbn [length].
    destruct (w - 1 - length seen)%nat as [| k] eqn:Hk.
    + replace (w - 1 - (length seen + 1))%nat with 0%nat in IH by lia.
      destruct IH as [_ IH]. cbn [skipn] in IH.
      cbn [firstn skipn]. split; [constructor |].
      constructor; [| exact IH].
      destruct (Nat.ltb_spec (Nat.min w (length seen + 1)) w); [lia |].
      eexists. reflexivity.
    + replace (w - 1 - (length seen + 1))%nat with k in IH by lia.
      destruct IH as [IHnan IHnum].
      cbn [firstn skipn]. split; [| exact IHnum].
      constructor; [| exact IHnan].
      destruct (Nat.ltb_spec (Nat.min w (length seen + 1)) w);
        [reflexivity | lia].
Qed.

(** C6, as the code has it.  The rolling volatility has one entry per
    return, on the returns' timestamps: its length is the number [n] of
    returns, one less than the number of closes.  Its first
    [min n (window - 1)] entries are NaN and the remaining
    [max 0 (n - window + 1)] entries are numbers.  It is empty only when
    there is no return (a series of one close); with [0 < n < window] it is
    not empty and every entry is NaN.  No error is raised, and the figure is
    built from the two rolling series whenever both frames are
    non-empty. *)
Theorem rolling_vol_shape (s : list (timestamp * R)) :
  positive_closes s ->
  length (returns_of s) = (length s - 1)%nat
  /\ length (rolling_vol (of_reals s)) = length (returns_of s)
  /\ index (rolling_vol (of_reals s)) = map fst (returns_of s)
  /\ Forall (fun p => snd p = NaN)
            (firstn (window - 1) (rolling_vol (of_reals s)))
  /\ length (firstn (window - 1) (rolling_vol (of_reals s))) =
     Nat.min (length (returns_of s)) (window - 1)
  /\ Forall is_number (skipn (window - 1) (rolling_vol (of_reals s)))
  /\ length (skipn (window - 1) (rolling_vol (of_reals s))) =
     Nat.max 0 (length (returns_of s) + 1 - window)
  /\ (rolling_vol (of_reals s) = [] <-> length (returns_of s) = 0%nat)
  /\ ((0 < length (returns_of s) < window)%nat ->
      rolling_vol (of_reals s) <> []
      /\ Forall (fun p => snd p = NaN) (rolling_vol (of_reals s)))
  /\ (forall prices2 : DataFrame,
         s <> [] -> prices2 <> [] ->
         plot_volatility_comparison (Some (of_reals s)) (Some prices2) =
         Some (rolling_vol (of_reals s), rolling_vol prices2)).
Proof.
  intros Hpos.
  assert (Hfig : forall prices2 : DataFrame,
             s <> [] -> prices2 <> [] ->
             plot_volatility_comparison (Some (of_reals s)) (Some prices2) =
             Some (rolling_vol (of_reals s), rolling_vol prices2)).
  { intros prices2 Hs H2. destruct s as [| p q]; [contradiction |].
    destruct prices2 as [| p2 q2]; [contradiction |]. reflexivity. }
  rewrite rolling_vol_of_reals in * by assumption.
  pose proof (length_rolling_spec_from window (returns_of s) []) as Hlen.
  destruct (split_rolling_spec_from window (returns_of s) [])
    as [Hnan Hnum].
  cbn [length] in Hnan, Hnum. rewrite Nat.sub_0_r in Hnan, Hnum.
  split.
  { destruct s as [| [t0 c0] rest]; [reflexivity |].
    cbn [returns_of length]. rewrite length_returns_from. lia. }
  split; [exact Hlen |].
  split; [apply index_rolling_spec_from |].
  split; [exact Hnan |].
  split; [rewrite length_firstn, Hlen; lia |].
  split; [exact Hnum |].
  split; [rewrite length_skipn, Hlen; unfold window; lia |].
  split.
  { split.
    - intros H. rewrite H in Hlen. cbn [length] in Hlen. lia.
    - intros H. rewrite H in Hlen.
      destruct (rolling_spec_from window [] (returns_of s));
        [reflexivity | discriminate]. }
  split; [| exact Hfig].
  intros [Hpos_n Hlt]. split.
  - intros H. rewrite H in Hlen. cbn [length] in Hlen. lia.
  - apply missing_rolling_spec_from. cbn [length]. lia.
Qed.

Lemma rolling_vol_shape_witness :
  rolling_vol (of_reals [(0%Z, 100); (1%Z, 110); (2%Z, 121)]) <> []
  /\ Forall (fun p => snd p = NaN)
            (rolling_vol (of_reals [(0%Z, 100); (1%Z, 110); (2%Z, 121)]))
  /\ plot_volatility_comparison
       (Some (of_reals [(0%Z, 100); (1%Z, 110); (2%Z, 121)]))
       (Some [(0%Z, Fin 5)]) =
     Some (rolling_vol (of_reals [(0%Z, 100); (1%Z, 110); (2%Z, 121)]),
           rolling_vol [(0%Z, Fin 5)]).
Proof.
  destruct (rolling_vol_shape [(0%Z, 100); (1%Z, 110); (2%Z, 121)])
    as [_ [_ [_ [_ [_ [_ [_ [_ [Hshort Hfig]]]]]]]]].
  - repeat constructor; simpl; lra.
  - destruct Hshort as [Hne Hnan]; [unfold window; cbn; lia |].
    split; [exact Hne |]. split; [exact Hnan |].
    apply Hfig; discriminate.
Defined.

(** C6 fails as stated: with one return, fewer than the window, the output
    is not empty; it has one (missing) entry, where the stated length is
    [max 0 (1 - 63 + 1) = 0]. *)
Lemma rolling_vol_short_counterexample :
  rolling_vol (of_reals [(0%Z, 100); (1%Z, 110)]) = [(1%Z, NaN)]
  /\ length (rolling_vol (of_reals [(0%Z, 100); (1%Z, 110)])) <>
     Nat.max 0 (1 + 1 - window).
Proof.
  assert (H : rolling_vol (of_reals [(0%Z, 100); (1%Z, 110)]) = [(1%Z, NaN)]).
  { rewrite rolling_vol_of_reals by (repeat constructor; simpl; lra).
    reflexivity. }
  split; [exact H |]. rewrite H. unfold window. cbn. lia.
Qed.

(** ** Population against sample standard deviation *)

Lemma sqrt_between (a b x : R) :
  0 <= a -> 0 <= b -> a * a < x -> x < b * b -> a < sqrt x < b.
Proof.
  intros Ha Hb Hlo Hhi.
  assert (Haa : 0 <= a * a) by (apply Rmult_le_pos; assumption).
  split.
  - rewrite <- (sqrt_square a) at 1 by assumption.
    apply sqrt_lt_1_alt. lra.
  - rewrite <- (sqrt_square b) by assumption.
    apply sqrt_lt_1_alt. lra.
Qed.

Lemma Rsum_map_repeat (f : R -> R) (a : R) (n : nat) :
  Rsum (map f (repeat a n)) = INR n * f a.
Proof.
  induction n as [| n IH].
  - cbn. lra.
  - rewrite S_INR. cbn [repeat map Rsum fold_right].
    fold (Rsum (map f (repeat a n))). rewrite IH. lra.
Qed.

Lemma map_const_repeat {A B : Type} (b : B) (l : list A) :
  map (fun _ => b) l = repeat b (length l).
Proof.
  induction l as [| x l IH]; [reflexivity |].
  cbn [map length repeat]. now rewrite IH.
Qed.

Lemma returns_from_flat {A : Type} (f : A -> timestamp) (c : R) (l : list A) :
  map snd (returns_from c (map (fun k => (f k, c)) l)) =
  repeat (c / c - 1) (length l).
Proof.
  induction l as [| k l IH]; [reflexivity |].
  cbn [map returns_from snd length repeat]. now rewrite IH.
Qed.

Lemma returns_doubling_then_flat :
  map snd (returns_of doubling_then_flat) = [1; 1; 1; 1; 1; 1; 1; 0].
Proof.
  unfold doubling_then_flat. cbn [returns_of returns_from map snd].
  repeat (apply f_equal2; [lra |]). reflexivity.
Qed.

Lemma returns_jump_then_flat :
  map snd (returns_of jump_then_flat) = 1 :: repeat 0 62.
Proof.
  unfold jump_then_flat.
  change (seq 1 63) with (1%nat :: seq 2 62).
  cbn [returns_of map returns_from snd].
  rewrite returns_from_flat, length_seq.
  f_equal; [lra |]. f_equal. lra.
Qed.

Lemma positive_doubling_then_flat : positive_closes doubling_then_flat.
Proof. repeat constructor; cbn [snd]; lra. Qed.

Lemma positive_jump_then_flat : positive_closes jump_then_flat.
Proof.
  constructor; [cbn [snd]; lra |].
  apply Forall_forall. intros p Hp.
  apply in_map_iff in Hp as [k [<- _]]. cbn [snd]. lra.
Qed.

Lemma sum_sq_dev_doubling : sum_sq_dev [1; 1; 1; 1; 1; 1; 1; 0] = 7 / 8.
Proof.
  unfold sum_sq_dev, Rmean. cbn [map Rsum fold_right length].
  rewrite INR_IZR_INZ. change (Z.of_nat 8) with 8%Z. lra.
Qed.

Lemma sum_sq_dev_jump : sum_sq_dev (1 :: repeat 0 62) = 62 / 63.
Proof.
  unfold sum_sq_dev, Rmean.
  cbn [map Rsum fold_right length]. rewrite repeat_length.
  fold (Rsum (repeat 0 62)).
  replace (Rsum (repeat 0 62)) with 0
    by (rewrite <- (map_id (repeat 0 62)), Rsum_map_repeat; lra).
  fold (Rsum (map (fun x => ((1 + 0) / INR 63 - x) * ((1 + 0) / INR 63 - x))
                  (repeat 0 62))).
  rewrite Rsum_map_repeat.
  rewrite !INR_IZR_INZ.
  change (Z.of_nat 63) with 63%Z. change (Z.of_nat 62) with 62%Z. lra.
Qed.

(** C3 at a failing input.  On the closes 1, 2, 4, ..., 128, 128 the returns
    are seven times 1 and once 0.  [calculate_volatility] returns 525.00,
    the annualised population standard deviation, whereas the sample
    standard deviation that the specification asks for gives 561.25. *)
Theorem calculate_volatility_uses_population_std :
  calculate_volatility (Some (of_reals doubling_then_flat)) =
  Return (Some (Fin 525))
  /\ spec_volatility doubling_then_flat = 56125 / 100.
Proof.
  split.
  - rewrite calculate_volatility_population;
      [| cbn; lia | exact positive_doubling_then_flat].
    do 3 f_equal. rewrite returns_doubling_then_flat.
    unfold population_std, annualize. rewrite sum_sq_dev_doubling.
    cbn [length]. rewrite INR_IZR_INZ. change (Z.of_nat 8) with 8%Z.
    rewrite <- sqrt_mult by lra.
    replace (7 / 8 / 8 * 252) with (21 / 4 * (21 / 4)) by lra.
    rewrite sqrt_square by lra.
    replace (21 / 4 * 100) with (IZR 52500 / 100) by lra.
    rewrite round2_cents. lra.
  - unfold spec_volatility. rewrite returns_doubling_then_flat.
    unfold sample_std, annualize. rewrite sum_sq_dev_doubling.
    cbn [length Nat.sub]. rewrite INR_IZR_INZ. change (Z.of_nat 7) with 7%Z.
    rewrite <- sqrt_mult by lra.
    unfold round2. f_equal. f_equal.
    apply rint_unique.
    pose proof (sqrt_between (561245 / 100000) (561255 / 100000)
                             (7 / 8 / 7 * 252)) as Hs.
    lra.
Qed.

Lemma last_rolling_spec_from (w : nat) (r : list (timestamp * R))
      (seen : list R) (d : float64) :
  r <> [] ->
  last (values (rolling_spec_from w seen r)) d =
  (if (length (lastn w (seen ++ map snd r)) <? w)%nat then NaN
   else Fin (annualize (sample_std (lastn w (seen ++ map snd r))))).
Proof.
  revert seen. induction r as [| [t x] r IH]; intros seen Hne;
    [contradiction |].
  destruct r as [| q r].
  - reflexivity.
  - assert (Happ : seen ++ map snd ((t, x) :: q :: r) =
                   (seen ++ [x]) ++ map snd (q :: r))
      by (cbn [map snd]; rewrite <- app_assoc; reflexivity).
    rewrite Happ, <- (IH (seen ++ [x])) by discriminate.
    destruct q as [tq xq]. reflexivity.
Qed.

(** C7 at a failing input.  On a close of 1 followed by 63 closes of 2
    there are exactly 63 returns, one 1 and 62 times 0.  The last rolling
    value, over these 63 returns, is 200 (sample standard deviation), while
    [calculate_volatility] on the same 63 returns gives 198.41 (population
    standard deviation). *)
Theorem rolling_and_scalar_volatility_differ :
  last (values (rolling_vol (of_reals jump_then_flat))) NaN = Fin 200
  /\ calculate_volatility (Some (of_reals jump_then_flat)) =
     Return (Some (Fin (19841 / 100))).
Proof.
  split.
  - rewrite rolling_vol_of_reals by exact positive_jump_then_flat.
    rewrite last_rolling_spec_from
      by (unfold jump_then_flat; cbn; discriminate).
    cbn [app]. rewrite returns_jump_then_flat.
    unfold lastn, window. cbn [length]. rewrite repeat_length.
    cbn [Nat.sub skipn Nat.ltb Nat.leb length]. rewrite repeat_length.
    cbn [Nat.leb]. f_equal.
    unfold sample_std, annualize. rewrite sum_sq_dev_jump.
    cbn [length]. rewrite repeat_length. cbn [Nat.sub].
    rewrite INR_IZR_INZ. change (Z.of_nat 62) with 62%Z.
    rewrite <- sqrt_mult by lra.
    replace (62 / 63 / 62 * 252) with (2 * 2) by lra.
    rewrite sqrt_square by lra. lra.
  - rewrite calculate_volatility_population;
      [| unfold jump_then_flat; cbn [length]; rewrite length_map, length_seq; lia
       | exact positive_jump_then_flat].
    do 3 f_equal. rewrite returns_jump_then_flat.
    unfold population_std, annualize. rewrite sum_sq_dev_jump.
    cbn [length]. rewrite repeat_length.
    rewrite INR_IZR_INZ. change (Z.of_nat 63) with 63%Z.
    rewrite <- sqrt_mult by lra.
    unfold round2. f_equal. f_equal.
    apply rint_unique.
    pose proof (sqrt_between (198405 / 100000) (198415 / 100000)
                             (62 / 63 / 63 * 252)) as Hs.
    lra.
Qed.

(** ** Worked examples *)

Ltac decide_max :=
  unfold Rmax;
  repeat match goal with
         | |- context [Rle_dec ?a ?b] => destruct (Rle_dec a b); try lra
         end.

(** A rise to 200 followed by a fall back to 100 is a drawdown of 50%. *)
Lemma max_drawdown_after_peak :
  calculate_max_drawdown
    (Some (of_reals [(0%Z, 100); (1%Z, 200); (2%Z, 100)])) =
  Return (Some (Fin (-50))).
Proof.
  unfold calculate_max_drawdown.
  change (of_reals [(0%Z, 100); (1%Z, 200); (2%Z, 100)])
    with ((0%Z, Fin 100) :: of_reals [(1%Z, 200); (2%Z, 100)]) at 1.
  cbv iota beta.
  change ((0%Z, Fin 100) :: of_reals [(1%Z, 200); (2%Z, 100)])
    with (of_reals [(0%Z, 100); (1%Z, 200); (2%Z, 100)]).
  rewrite drawdown_series_of_reals by (repeat constructor; cbn [snd]; lra).
  unfold growth_of, returns_of.
  cbn [returns_from map Rcumprod_from Rdrawdowns Rdrawdowns_from fst snd
       values of_reals].
  replace (1 * (200 / 100 - 1 + 1)) with 2 by lra.
  replace (2 * (100 / 200 - 1 + 1)) with 1 by lra.
  replace (Rmax 2 2) with 2 by (decide_max; reflexivity).
  replace (Rmax 2 1) with 2 by (decide_max; reflexivity).
  replace ((2 / 2 - 1) * 100) with 0 by lra.
  replace ((1 / 2 - 1) * 100) with (-50) by lra.
  unfold nanmin. cbn [filter isnan negb fold_left].
  unfold fmin. cbn [flt]. destruct (Rlt_dec (-50) 0); [| lra].
  cbn [fround2]. do 3 f_equal.
  replace (-50) with (IZR (-5000) / 100) by lra. apply round2_cents.
Qed.

(** The growth series starts at the first return, so a fall from the very
    first close is not measured: 100, 50, 100 has a maximum drawdown of
    0.00. *)
Lemma max_drawdown_from_first_close :
  calculate_max_drawdown
    (Some (of_reals [(0%Z, 100); (1%Z, 50); (2%Z, 100)])) =
  Return (Some (Fin 0)).
Proof.
  unfold calculate_max_drawdown.
  change (of_reals [(0%Z, 100); (1%Z, 50); (2%Z, 100)])
    with ((0%Z, Fin 100) :: of_reals [(1%Z, 50); (2%Z, 100)]) at 1.
  cbv iota beta.
  change ((0%Z, Fin 100) :: of_reals [(1%Z, 50); (2%Z, 100)])
    with (of_reals [(0%Z, 100); (1%Z, 50); (2%Z, 100)]).
  rewrite drawdown_series_of_reals by (repeat constructor; cbn [snd]; lra).
  unfold growth_of, returns_of.
  cbn [returns_from map Rcumprod_from Rdrawdowns Rdrawdowns_from fst snd
       values of_reals].
  replace (1 * (50 / 100 - 1 + 1)) with (1 / 2) by lra.
  replace (1 / 2 * (100 / 50 - 1 + 1)) with 1 by lra.
  replace (Rmax (1 / 2) (1 / 2)) with (1 / 2) by (decide_max; reflexivity).
  replace (Rmax (1 / 2) 1) with 1 by (decide_max; reflexivity).
  replace ((1 / 2 / (1 / 2) - 1) * 100) with 0 by lra.
  replace ((1 / 1 - 1) * 100) with 0 by lra.
  unfold nanmin. cbn [filter isnan negb fold_left].
  unfold fmin. cbn [flt]. destruct (Rlt_dec 0 0); [lra |].
  cbn [fround2]. do 3 f_equal. apply round2_0.
Qed.

(** * Further properties of the code *)

(** ** More on rounding *)

Lemma round2_nonneg (x : R) : 0 <= x -> 0 <= round2 x.
Proof.
  intros Hx. unfold round2.
  pose proof (rint_close (x * 100)) as [_ Hhi].
  assert (H : IZR (-1) < IZR (rint (x * 100))) by lra.
  apply lt_IZR in H.
  assert (H0 : (0 <= rint (x * 100))%Z) by lia.
  apply IZR_le in H0. lra.
Qed.

Lemma round2_ge_cents (x : R) (z : Z) :
  IZR z / 100 <= x -> IZR z / 100 <= round2 x.
Proof.
  intros Hx. unfold round2.
  pose proof (rint_close (x * 100)) as [_ Hhi].
  assert (H : IZR (z - 1) < IZR (rint (x * 100)))
    by (rewrite minus_IZR; lra).
  apply lt_IZR in H.
  assert (H0 : (z <= rint (x * 100))%Z) by lia.
  apply IZR_le in H0. lra.
Qed.

(** ** [calculate_max_drawdown]: absent results and bounds *)

(** X1.  [calculate_max_drawdown] never raises; it returns absent exactly when
    the frame is missing or empty, and NaN (not absent) on a one-point
    frame, whose only growth factor is missing. *)
Theorem calculate_max_drawdown_absent (prices : option DataFrame) :
  (exists r, calculate_max_drawdown prices = Return r)
  /\ (calculate_max_drawdown prices = Return None <->
      prices = None \/ prices = Some [])
  /\ (forall t c, prices = Some [(t, c)] ->
      calculate_max_drawdown prices = Return (Some NaN)).
Proof.
  split; [| split].
  - destruct prices as [[| p rest] |]; eexists; reflexivity.
  - split.
    + destruct prices as [[| p rest] |]; auto. discriminate.
    + intros [-> | ->]; reflexivity.
  - intros t c ->. unfold calculate_max_drawdown, drawdown_series.
    unfold pct_change. cbn [pct_change_from].
    assert (Hnan : fsub (fdiv (if isnan c then NaN else c) NaN) (Fin 1) = NaN).
    { destruct c as [x | b |]; reflexivity. }
    rewrite Hnan. reflexivity.
Qed.

Lemma calculate_max_drawdown_absent_witness :
  calculate_max_drawdown (Some []) = Return None
  /\ calculate_max_drawdown (Some [(0%Z, Fin 100)]) = Return (Some NaN).
Proof.
  split.
  - apply (proj1 (proj2 (calculate_max_drawdown_absent (Some [])))).
    right. reflexivity.
  - exact (proj2 (proj2 (calculate_max_drawdown_absent
                           (Some [(0%Z, Fin 100)])))
                 0%Z (Fin 100) eq_refl).
Defined.

Lemma fold_fmin_least (l : list R) (a : R) :
  exists v, fold_left fmin (map Fin l) (Fin a) = Fin v
            /\ In v (a :: l)
            /\ Forall (fun d => v <= d) (a :: l).
Proof.
  revert a. induction l as [| b l IH]; intros a.
  - exists a. cbn. split; [reflexivity |]. split; [now left |].
    constructor; [lra | constructor].
  - cbn [map fold_left]. unfold fmin at 2. cbn [flt].
    destruct (Rlt_dec b a) as [Hlt | Hge].
    + destruct (IH b) as [v [Hv [Hin Hall]]]. exists v.
      split; [exact Hv |]. split; [now right |].
      inversion Hall as [| ? ? Hvb Hl]; subst.
      constructor; [lra |]. constructor; assumption.
    + destruct (IH a) as [v [Hv [Hin Hall]]]. exists v.
      split; [exact Hv |]. split.
      * destruct Hin as [<- | Hin]; [now left | right; now right].
      * inversion Hall as [| ? ? Hva Hl]; subst.
        constructor; [assumption |]. constructor; [lra | assumption].
Qed.

(** The value returned on two or more positive closes is the least
    drawdown of the growth series, rounded. *)
Lemma calculate_max_drawdown_least (t0 : timestamp) (c0 : R)
      (rest : list (timestamp * R)) :
  rest <> [] -> positive_closes ((t0, c0) :: rest) ->
  exists v,
    calculate_max_drawdown (Some (of_reals ((t0, c0) :: rest))) =
    Return (Some (Fin (round2 v)))
    /\ In v (map snd (Rdrawdowns (growth_of ((t0, c0) :: rest))))
    /\ Forall (fun d => v <= d)
              (map snd (Rdrawdowns (growth_of ((t0, c0) :: rest)))).
Proof.
  intros Hne Hpos.
  unfold calculate_max_drawdown.
  change (of_reals ((t0, c0) :: rest))
    with ((t0, Fin c0) :: of_reals rest) at 1.
  cbv iota beta.
  change ((t0, Fin c0) :: of_reals rest) with (of_reals ((t0, c0) :: rest)).
  rewrite drawdown_series_of_reals by assumption.
  assert (Hlen : length (Rdrawdowns (growth_of ((t0, c0) :: rest))) =
                 length rest).
  { unfold growth_of, returns_of.
    assert (Hg : length (Rcumprod_from 1
                   (map (fun p => (fst p, snd p + 1)) (returns_from c0 rest)))
                 = length rest)
      by (rewrite length_Rcumprod_from, length_map, length_returns_from;
          reflexivity).
    destruct (Rcumprod_from 1 _) as [| [tg g1] g'];
      [exact Hg |].
    cbn [Rdrawdowns]. rewrite length_Rdrawdowns_from. exact Hg. }
  destruct (Rdrawdowns (growth_of ((t0, c0) :: rest))) as [| [td d1] ds].
  - destruct rest; [contradiction | discriminate].
  - cbn [values map snd]. fold (values (of_reals ((td, d1) :: ds))).
    rewrite values_of_reals.
    unfold nanmin. cbn [filter isnan negb]. rewrite filter_notnan_Fin.
    cbn [map snd].
    destruct (fold_fmin_least (map snd ds) d1) as [v [Hv [Hin Hall]]].
    exists v. rewrite Hv. cbn [fround2]. repeat split; assumption.
Qed.

Lemma Rdrawdowns_from_above (g : list (timestamp * R)) (m : R) :
  0 < m -> positive_closes g ->
  Forall (fun p => -100 < snd p) (Rdrawdowns_from m g).
Proof.
  revert m. induction g as [| [t x] g IH]; intros m Hm Hpos; [constructor |].
  apply positive_closes_cons in Hpos as [Hx Hg].
  assert (HM : 0 < Rmax m x) by (apply Rmax_case; assumption).
  cbn [Rdrawdowns_from]. constructor.
  - cbn [snd].
    assert (0 < x / Rmax m x) by (apply Rdiv_lt_0_compat; assumption).
    lra.
  - apply IH; assumption.
Qed.

(** X2.  On two or more positive closes the maximum drawdown is a percentage
    between -100.00 and 0.00. *)
Theorem calculate_max_drawdown_range (s : list (timestamp * R)) :
  (2 <= length s)%nat -> positive_closes s ->
  exists v,
    calculate_max_drawdown (Some (of_reals s)) = Return (Some (Fin v))
    /\ -100 <= v <= 0.
Proof.
  intros Hlen Hpos.
  destruct s as [| [t0 c0] [| q rest]]; try (simpl in Hlen; lia).
  destruct (calculate_max_drawdown_least t0 c0 (q :: rest))
    as [v [Hv [Hin _]]]; [discriminate | assumption |].
  exists (round2 v). split; [exact Hv |].
  pose proof Hpos as Hpos'.
  apply positive_closes_cons in Hpos' as [Hc0 Hrest].
  pose proof (growth_positive (q :: rest) c0 1 Hc0 Rlt_0_1 Hrest) as Hg.
  change (positive_closes (growth_of ((t0, c0) :: q :: rest))) in Hg.
  destruct (growth_of ((t0, c0) :: q :: rest)) as [| [tg g1] g'];
    [contradiction |].
  pose proof Hg as Hg'. apply positive_closes_cons in Hg' as [Hg1 _].
  cbn [Rdrawdowns] in Hin.
  apply in_map_iff in Hin as [p [<- Hp]].
  pose proof (Rdrawdowns_from_nonpos _ g1 Hg1 Hg) as Hup.
  pose proof (Rdrawdowns_from_above _ g1 Hg1 Hg) as Hlow.
  rewrite Forall_forall in Hup, Hlow.
  specialize (Hup p Hp). specialize (Hlow p Hp). cbn beta in Hup, Hlow.
  split.
  - replace (-100) with (IZR (-10000) / 100) by lra.
    apply round2_ge_cents. lra.
  - apply round2_nonpos. exact Hup.
Qed.

Lemma calculate_max_drawdown_range_witness :
  exists v,
    calculate_max_drawdown
      (Some (of_reals [(0%Z, 100); (1%Z, 200); (2%Z, 100)])) =
    Return (Some (Fin v)) /\ -100 <= v <= 0.
Proof.
  apply (calculate_max_drawdown_range [(0%Z, 100); (1%Z, 200); (2%Z, 100)]).
  - simpl. lia.
  - repeat constructor; simpl; lra.
Defined.

(** ** The first close and the unit of the prices *)

Lemma growth_closed_form (rest : list (timestamp * R)) (prev acc : R) :
  0 < prev -> positive_closes rest ->
  Rcumprod_from acc
    (map (fun p => (fst p, snd p + 1)) (returns_from prev rest)) =
  map (fun p => (fst p, acc / prev * snd p)) rest.
Proof.
  revert prev acc.
  induction rest as [| [t c] rest IH]; intros prev acc Hprev Hpos;
    [reflexivity |].
  apply positive_closes_cons in Hpos as [Hc Hrest].
  cbn [returns_from map Rcumprod_from fst snd].
  replace (acc * (c / prev - 1 + 1)) with (acc / prev * c)
    by (field; lra).
  f_equal. rewrite IH by assumption.
  apply map_ext. intros [t' c']. cbn [fst snd]. f_equal. field. lra.
Qed.

Lemma Rdrawdowns_from_scaled (g : list (timestamp * R)) (k m : R) :
  0 < k -> 0 < m -> positive_closes g ->
  Rdrawdowns_from (k * m) (map (fun p => (fst p, k * snd p)) g) =
  Rdrawdowns_from m g.
Proof.
  intros Hk. revert m.
  induction g as [| [t x] g IH]; intros m Hm Hpos; [reflexivity |].
  apply positive_closes_cons in Hpos as [Hx Hg].
  assert (HM : 0 < Rmax m x) by (apply Rmax_case; assumption).
  cbn [map Rdrawdowns_from fst snd].
  rewrite RmaxRmult by lra.
  rewrite IH by assumption.
  f_equal. f_equal. f_equal. f_equal. field. lra.
Qed.

Lemma Rdrawdowns_scaled (g : list (timestamp * R)) (k : R) :
  0 < k -> positive_closes g ->
  Rdrawdowns (map (fun p => (fst p, k * snd p)) g) = Rdrawdowns g.
Proof.
  intros Hk Hpos. destruct g as [| [t x] g]; [reflexivity |].
  pose proof Hpos as Hpos'. apply positive_closes_cons in Hpos' as [Hx _].
  unfold Rdrawdowns.
  change (map (fun p => (fst p, k * snd p)) ((t, x) :: g))
    with ((t, k * x) :: map (fun p => (fst p, k * snd p)) g).
  cbv iota beta.
  change ((t, k * x) :: map (fun p => (fst p, k * snd p)) g)
    with (map (fun p => (fst p, k * snd p)) ((t, x) :: g)).
  apply Rdrawdowns_from_scaled; assumption.
Qed.

(** The drawdowns of a series are those of its closes after the first one,
    each measured against the highest close since the second observation:
    the first close is not among the peaks. *)
Lemma drawdowns_of_growth (t0 : timestamp) (c0 : R)
      (rest : list (timestamp * R)) :
  positive_closes ((t0, c0) :: rest) ->
  Rdrawdowns (growth_of ((t0, c0) :: rest)) = Rdrawdowns rest.
Proof.
  intros Hpos. apply positive_closes_cons in Hpos as [Hc0 Hrest].
  unfold growth_of, returns_of. rewrite growth_closed_form by assumption.
  apply Rdrawdowns_scaled; [| assumption].
  apply Rdiv_lt_0_compat; lra.
Qed.

Lemma max_drawdown_first_close_exact
      (t0 : timestamp) (c0 c0' : R) (rest : list (timestamp * R)) :
  0 < c0 -> 0 < c0' -> positive_closes rest ->
  calculate_max_drawdown (Some (of_reals ((t0, c0) :: rest))) =
  calculate_max_drawdown (Some (of_reals ((t0, c0') :: rest))).
Proof.
  intros Hc0 Hc0' Hrest.
  assert (Hpos : positive_closes ((t0, c0) :: rest))
    by (apply positive_closes_cons; split; assumption).
  assert (Hpos' : positive_closes ((t0, c0') :: rest))
    by (apply positive_closes_cons; split; assumption).
  unfold calculate_max_drawdown.
  change (of_reals ((t0, c0) :: rest))
    with ((t0, Fin c0) :: of_reals rest) at 1.
  change (of_reals ((t0, c0') :: rest))
    with ((t0, Fin c0') :: of_reals rest) at 1.
  cbv iota beta.
  change ((t0, Fin c0) :: of_reals rest) with (of_reals ((t0, c0) :: rest)).
  change ((t0, Fin c0') :: of_reals rest) with (of_reals ((t0, c0') :: rest)).
  rewrite !drawdown_series_of_reals by assumption.
  rewrite !drawdowns_of_growth by assumption.
  reflexivity.
Qed.

(** X3.  A fall from the very first close is not measured.  When the closes
    after the first never decline, the maximum drawdown is 0.00 however far
    the second close lies below the first; and two series of positive closes
    that differ only in their first close have results at most one cent
    apart (the growth factors of the two differ by a constant factor, so
    the drawdowns are the same before rounding, up to the error of the
    float64 arithmetic). *)
Theorem calculate_max_drawdown_ignores_first_close
        (t0 : timestamp) (c0 c0' : R) (rest : list (timestamp * R)) :
  0 < c0 -> 0 < c0' -> rest <> [] -> positive_closes rest ->
  exists v v',
    calculate_max_drawdown (Some (of_reals ((t0, c0) :: rest))) =
    Return (Some (Fin v))
    /\ calculate_max_drawdown (Some (of_reals ((t0, c0') :: rest))) =
       Return (Some (Fin v'))
    /\ Rabs (v - v') <= 1 / 100 + float_slack
    /\ (nondecreasing rest -> v = 0 /\ v' = 0).
Proof.
  intros Hc0 Hc0' Hne Hrest.
  assert (Hpos : positive_closes ((t0, c0) :: rest))
    by (apply positive_closes_cons; split; assumption).
  destruct (calculate_max_drawdown_least t0 c0 rest Hne Hpos)
    as [v0 [Hv0 [Hin _]]].
  rewrite drawdowns_of_growth in Hin by assumption.
  exists (round2 v0), (round2 v0).
  split; [exact Hv0 |].
  split; [rewrite <- (max_drawdown_first_close_exact t0 c0 c0' rest)
            by assumption; exact Hv0 |].
  split.
  - replace (round2 v0 - round2 v0) with 0 by lra. rewrite Rabs_R0.
    unfold float_slack. lra.
  - intros Hmono.
    assert (Hzero : v0 = 0).
    { destruct rest as [| [t1 c1] rest']; [contradiction |].
      pose proof Hrest as Hc1. apply positive_closes_cons in Hc1 as [Hc1 _].
      cbn [Rdrawdowns] in Hin.
      assert (Hflat : Forall (fun p => snd p = 0)
                             (Rdrawdowns_from c1 ((t1, c1) :: rest'))).
      { apply Rdrawdowns_from_flat; [assumption |].
        split; [lra | exact Hmono]. }
      apply in_map_iff in Hin as [p [<- Hp]].
      rewrite Forall_forall in Hflat. now apply Hflat. }
    rewrite Hzero, round2_0. split; reflexivity.
Qed.

Lemma calculate_max_drawdown_ignores_first_close_witness :
  exists v v',
    calculate_max_drawdown
      (Some (of_reals [(0%Z, 100); (1%Z, 50); (2%Z, 100)])) =
    Return (Some (Fin v))
    /\ calculate_max_drawdown
         (Some (of_reals [(0%Z, 50); (1%Z, 50); (2%Z, 100)])) =
       Return (Some (Fin v'))
    /\ v = 0 /\ v' = 0.
Proof.
  destruct (calculate_max_drawdown_ignores_first_close
              0%Z 100 50 [(1%Z, 50); (2%Z, 100)])
    as [v [v' [Hv [Hv' [_ Hzero]]]]].
  - lra.
  - lra.
  - discriminate.
  - repeat constructor; simpl; lra.
  - exists v, v'. split; [exact Hv |]. split; [exact Hv' |].
    apply Hzero. cbn [nondecreasing nondecreasing_from]. lra.
Defined.

Lemma positive_scale_closes (k : R) (s : list (timestamp * R)) :
  0 < k -> positive_closes s -> positive_closes (scale_closes k s).
Proof.
  intros Hk Hpos. unfold positive_closes, scale_closes in *.
  apply Forall_forall. intros p Hp.
  apply in_map_iff in Hp as [q [<- Hq]]. cbn [snd].
  rewrite Forall_forall in Hpos. specialize (Hpos q Hq).
  apply Rmult_lt_0_compat; assumption.
Qed.

Lemma returns_from_scaled (k prev : R) (s : list (timestamp * R)) :
  0 < k -> 0 < prev -> positive_closes s ->
  returns_from (k * prev) (scale_closes k s) = returns_from prev s.
Proof.
  intros Hk. revert prev.
  induction s as [| [t c] s IH]; intros prev Hprev Hpos; [reflexivity |].
  apply positive_closes_cons in Hpos as [Hc Hs].
  cbn [scale_closes map returns_from fst snd].
  fold (scale_closes k s). rewrite IH by assumption.
  f_equal. f_equal. field. lra.
Qed.

Lemma returns_of_scaled (k : R) (s : list (timestamp * R)) :
  0 < k -> positive_closes s ->
  returns_of (scale_closes k s) = returns_of s.
Proof.
  intros Hk Hpos. destruct s as [| [t0 c0] rest]; [reflexivity |].
  apply positive_closes_cons in Hpos as [Hc0 Hrest].
  cbn [scale_closes map returns_of fst snd]. fold (scale_closes k rest).
  apply returns_from_scaled; assumption.
Qed.

Lemma last_close_scaled (k : R) (t0 : timestamp) (c0 : R)
      (rest : list (timestamp * R)) :
  last_close (scale_closes k ((t0, c0) :: rest)) =
  k * last_close ((t0, c0) :: rest).
Proof.
  unfold last_close.
  destruct (exists_last (l := (t0, c0) :: rest)) as [l' [[t c] Ha]];
    [discriminate |].
  rewrite Ha. unfold scale_closes. rewrite map_app. cbn [map fst snd].
  now rewrite !last_last.
Qed.

(** X4.  CAGR does not depend on the unit in which the prices are quoted:
    multiplying every close by [k > 0] leaves the result unchanged, whatever
    [years] is (with [years = 0] both calls raise). *)
Theorem calculate_cagr_scale_invariant (k : R) (s : list (timestamp * R))
        (years : Z) :
  0 < k -> positive_closes s ->
  calculate_cagr (Some (of_reals (scale_closes k s))) years =
  calculate_cagr (Some (of_reals s)) years.
Proof.
  intros Hk Hpos. destruct s as [| [t0 c0] rest]; [reflexivity |].
  destruct (Z.eq_dec years 0) as [-> | Hy]; [reflexivity |].
  pose proof (positive_scale_closes k _ Hk Hpos) as Hpos'.
  pose proof Hpos as Hc0. apply positive_closes_cons in Hc0 as [Hc0 _].
  rewrite (calculate_cagr_nonempty t0 c0 rest years Hpos Hy).
  change (scale_closes k ((t0, c0) :: rest))
    with ((t0, k * c0) :: scale_closes k rest) in *.
  rewrite (calculate_cagr_nonempty t0 (k * c0) (scale_closes k rest) years
             Hpos' Hy).
  change ((t0, k * c0) :: scale_closes k rest)
    with (scale_closes k ((t0, c0) :: rest)).
  rewrite last_close_scaled. unfold spec_cagr.
  replace (k * last_close ((t0, c0) :: rest) / (k * c0))
    with (last_close ((t0, c0) :: rest) / c0) by (field; lra).
  reflexivity.
Qed.

Lemma calculate_cagr_scale_invariant_witness :
  calculate_cagr
    (Some (of_reals (scale_closes 3 [(0%Z, 100); (1%Z, 110)]))) 5 =
  calculate_cagr (Some (of_reals [(0%Z, 100); (1%Z, 110)])) 5.
Proof.
  apply (calculate_cagr_scale_invariant 3 [(0%Z, 100); (1%Z, 110)] 5).
  - lra.
  - repeat constructor; simpl; lra.
Defined.

Lemma calculate_volatility_of_returns (t0 : timestamp) (c0 : R)
      (rest : list (timestamp * R)) :
  positive_closes ((t0, c0) :: rest) ->
  calculate_volatility (Some (of_reals ((t0, c0) :: rest))) =
  Return (Some (fround2
    (fmul (fmul (nanstd 0 (map Fin (map snd (returns_from c0 rest))))
                (fsqrt (Fin 252))) (Fin 100)))).
Proof.
  intros Hpos. unfold calculate_volatility.
  change (of_reals ((t0, c0) :: rest))
    with ((t0, Fin c0) :: of_reals rest) at 1.
  cbv iota beta.
  change ((t0, Fin c0) :: of_reals rest) with (of_reals ((t0, c0) :: rest)).
  rewrite pct_change_of_reals by assumption.
  unfold dropna. cbn [filter notna snd isnan negb].
  fold (dropna (of_reals (returns_from c0 rest))).
  rewrite dropna_of_reals.
  unfold np_std. rewrite values_of_reals. reflexivity.
Qed.

(** X5.  Volatility, rolling volatility and maximum drawdown depend on the
    returns only: multiplying every close by [k > 0] changes none of
    them. *)
Theorem risk_metrics_scale_invariant (k : R) (s : list (timestamp * R)) :
  0 < k -> positive_closes s ->
  calculate_volatility (Some (of_reals (scale_closes k s))) =
  calculate_volatility (Some (of_reals s))
  /\ rolling_vol (of_reals (scale_closes k s)) = rolling_vol (of_reals s)
  /\ calculate_max_drawdown (Some (of_reals (scale_closes k s))) =
     calculate_max_drawdown (Some (of_reals s)).
Proof.
  intros Hk Hpos.
  pose proof (positive_scale_closes k _ Hk Hpos) as Hpos'.
  pose proof (returns_of_scaled k s Hk Hpos) as Hret.
  split; [| split].
  - destruct s as [| [t0 c0] rest]; [reflexivity |].
    change (scale_closes k ((t0, c0) :: rest))
      with ((t0, k * c0) :: scale_closes k rest) in *.
    rewrite !calculate_volatility_of_returns by assumption.
    cbn [returns_of] in Hret. now rewrite Hret.
  - rewrite !rolling_vol_of_reals by assumption. now rewrite Hret.
  - destruct s as [| [t0 c0] rest]; [reflexivity |].
    change (scale_closes k ((t0, c0) :: rest))
      with ((t0, k * c0) :: scale_closes k rest) in *.
    unfold calculate_max_drawdown.
    change (of_reals ((t0, k * c0) :: scale_closes k rest))
      with ((t0, Fin (k * c0)) :: of_reals (scale_closes k rest)) at 1.
    change (of_reals ((t0, c0) :: rest))
      with ((t0, Fin c0) :: of_reals rest) at 1.
    cbv iota beta.
    change ((t0, Fin (k * c0)) :: of_reals (scale_closes k rest))
      with (of_reals ((t0, k * c0) :: scale_closes k rest)).
    change ((t0, Fin c0) :: of_reals rest)
      with (of_reals ((t0, c0) :: rest)).
    rewrite !drawdown_series_of_reals by assumption.
    unfold growth_of. now rewrite Hret.
Qed.

Lemma risk_metrics_scale_invariant_witness :
  calculate_volatility
    (Some (of_reals (scale_closes 2 [(0%Z, 100); (1%Z, 110); (2%Z, 99)]))) =
  calculate_volatility (Some (of_reals [(0%Z, 100); (1%Z, 110); (2%Z, 99)])).
Proof.
  apply (risk_metrics_scale_invariant 2 [(0%Z, 100); (1%Z, 110); (2%Z, 99)]).
  - lra.
  - repeat constructor; simpl; lra.
Defined.

(** X6.  Two quotations of the same instrument have the same normalised chart:
    multiplying every close by [k > 0] does not change [normalize]. *)
Theorem normalize_scale_invariant (k : R) (s : list (timestamp * R)) :
  0 < k -> positive_closes s ->
  normalize (of_reals (scale_closes k s)) = normalize (of_reals s).
Proof.
  intros Hk Hpos. destruct s as [| [t0 c0] rest]; [reflexivity |].
  pose proof (positive_scale_closes k _ Hk Hpos) as Hpos'.
  pose proof Hpos as Hc0. apply positive_closes_cons in Hc0 as [Hc0 _].
  rewrite !normalize_of_reals;
    try discriminate;
    try (unfold first_close; cbn [scale_closes map hd fst snd];
         apply Rgt_not_eq; try apply Rmult_lt_0_compat; assumption).
  do 2 f_equal. unfold spec_normalize.
  change (first_close (scale_closes k ((t0, c0) :: rest))) with (k * c0).
  change (first_close ((t0, c0) :: rest)) with c0.
  unfold scale_closes. rewrite map_map.
  apply map_ext. intros [t c]. cbn [fst snd]. f_equal. field. lra.
Qed.

Lemma normalize_scale_invariant_witness :
  normalize (of_reals (scale_closes 4 [(0%Z, 50); (1%Z, 75)])) =
  normalize (of_reals [(0%Z, 50); (1%Z, 75)]).
Proof.
  apply (normalize_scale_invariant 4 [(0%Z, 50); (1%Z, 75)]).
  - lra.
  - repeat constructor; simpl; lra.
Defined.

(** ** Direction of the CAGR *)

Lemma Rpower_ge_1 (x y : R) : 1 <= x -> 0 < y -> 1 <= Rpower x y.
Proof.
  intros Hx Hy. unfold Rpower.
  destruct (Req_dec x 1) as [-> | Hne].
  - rewrite ln_1, Rmult_0_r, exp_0. lra.
  - assert (Hln : 0 < ln x)
      by (rewrite <- ln_1; apply ln_increasing; lra).
    rewrite <- exp_0. apply Rlt_le, exp_increasing.
    apply Rmult_lt_0_compat; assumption.
Qed.

Lemma Rpower_le_1 (x y : R) : 0 < x <= 1 -> 0 < y -> Rpower x y <= 1.
Proof.
  intros [Hx0 Hx1] Hy. unfold Rpower.
  destruct (Req_dec x 1) as [-> | Hne].
  - rewrite ln_1, Rmult_0_r, exp_0. lra.
  - assert (Hln : ln x < 0)
      by (rewrite <- ln_1; apply ln_increasing; lra).
    rewrite <- exp_0. apply Rlt_le, exp_increasing.
    assert (0 < y * - ln x) by (apply Rmult_lt_0_compat; lra).
    lra.
Qed.

(** X7.  With [years > 0] the sign of the CAGR follows the direction of the
    price: it is not negative when the last close is at least the first, not
    positive when it is at most the first; and over one year it is the plain
    percentage change of the price, rounded to two decimals (a nearest cent,
    see [rounded_to_cents]). *)
Theorem calculate_cagr_direction (s : list (timestamp * R)) (years : Z) :
  s <> [] -> positive_closes s -> (0 < years)%Z ->
  exists v,
    calculate_cagr (Some (of_reals s)) years = Return (Some (Fin v))
    /\ (first_close s <= last_close s -> 0 <= v)
    /\ (last_close s <= first_close s -> v <= 0)
    /\ (years = 1%Z ->
        rounded_to_cents v ((last_close s / first_close s - 1) * 100)).
Proof.
  intros Hne Hpos Hy. destruct s as [| [t0 c0] rest]; [contradiction |].
  rewrite calculate_cagr_nonempty by (assumption || lia).
  eexists. split; [reflexivity |].
  change (first_close ((t0, c0) :: rest)) with c0.
  set (l := last_close ((t0, c0) :: rest)).
  assert (Hc0 : 0 < c0)
    by (apply positive_closes_cons in Hpos; tauto).
  assert (Hl : 0 < l).
  { unfold l, last_close.
    destruct (exists_last (l := (t0, c0) :: rest)) as [l' [a Ha]];
      [discriminate |].
    rewrite Ha, last_last.
    unfold positive_closes in Hpos. rewrite Ha in Hpos.
    apply Forall_app in Hpos as [_ Hpos]. now inversion Hpos. }
  assert (Hexp : 0 < 1 / IZR years).
  { apply Rdiv_lt_0_compat; [lra |]. apply IZR_lt in Hy. exact Hy. }
  assert (Hratio : 0 < l / c0) by (apply Rdiv_lt_0_compat; assumption).
  unfold spec_cagr. repeat split.
  - intros Hle. apply round2_nonneg.
    assert (1 <= l / c0).
    { apply (Rmult_le_reg_r c0); [assumption |].
      unfold Rdiv. rewrite Rmult_assoc, Rinv_l by lra. lra. }
    pose proof (Rpower_ge_1 (l / c0) (1 / IZR years)). lra.
  - intros Hle. apply round2_nonpos.
    assert (l / c0 <= 1).
    { apply (Rmult_le_reg_r c0); [assumption |].
      unfold Rdiv. rewrite Rmult_assoc, Rinv_l by lra. lra. }
    pose proof (Rpower_le_1 (l / c0) (1 / IZR years)). lra.
  - eexists. reflexivity.
  - subst years. replace (1 / 1) with 1 by lra.
    rewrite Rpower_1 by assumption.
    apply round2_rounded_to_cents.
Qed.

Lemma calculate_cagr_direction_witness :
  exists v,
    calculate_cagr (Some (of_reals [(0%Z, 160); (1%Z, 67)])) 1 =
    Return (Some (Fin v))
    /\ v <= 0 /\ rounded_to_cents v ((67 / 160 - 1) * 100).
Proof.
  destruct (calculate_cagr_direction [(0%Z, 160); (1%Z, 67)] 1)
    as [v [Hv [_ [Hdown Hone]]]].
  - discriminate.
  - repeat constructor; simpl; lra.
  - lia.
  - exists v. split; [exact Hv |]. split.
    + apply Hdown. unfold first_close, last_close. cbn [hd last snd]. lra.
    + apply Hone. reflexivity.
Defined.

(** ** Sign and zero of the volatility *)

Lemma all_equal_repeat (a : R) (l : list R) :
  Forall (fun x => x = a) l -> l = repeat a (length l).
Proof.
  induction 1 as [| x l Hx _ IH]; [reflexivity |].
  cbn [length repeat]. now rewrite Hx, <- IH.
Qed.

Lemma sum_sq_dev_all_equal (a : R) (l : list R) :
  Forall (fun x => x = a) l -> sum_sq_dev l = 0.
Proof.
  intros Hall. rewrite (all_equal_repeat a l Hall).
  set (n := length l). unfold sum_sq_dev, Rmean.
  rewrite repeat_length, Rsum_map_repeat.
  rewrite <- (map_id (repeat a n)) at 1 2. rewrite Rsum_map_repeat.
  destruct n as [| n]; [cbn; lra |].
  assert (INR (S n) <> 0) by (apply not_0_INR; lia).
  replace (INR (S n) * a / INR (S n)) with a by (field; assumption).
  lra.
Qed.

(** X8.  On two or more positive closes the volatility is a number that is never
    negative, and it is 0.00 when every return is the same: a constant
    price, or a price growing at a constant rate. *)
Theorem calculate_volatility_nonnegative (s : list (timestamp * R)) :
  (2 <= length s)%nat -> positive_closes s ->
  exists v,
    calculate_volatility (Some (of_reals s)) = Return (Some (Fin v))
    /\ 0 <= v
    /\ (forall r, Forall (fun x => x = r) (map snd (returns_of s)) -> v = 0).
Proof.
  intros Hlen Hpos.
  rewrite calculate_volatility_population by assumption.
  eexists. split; [reflexivity |]. split.
  - apply round2_nonneg. unfold annualize.
    apply Rmult_le_pos; [| lra].
    apply Rmult_le_pos; apply sqrt_pos.
  - intros r Hall. unfold annualize, population_std.
    rewrite (sum_sq_dev_all_equal r) by assumption.
    unfold Rdiv. rewrite Rmult_0_l, sqrt_0.
    replace (0 * sqrt 252 * 100) with 0 by lra. apply round2_0.
Qed.

Lemma calculate_volatility_nonnegative_witness :
  exists v,
    calculate_volatility
      (Some (of_reals [(0%Z, 100); (1%Z, 110); (2%Z, 121)])) =
    Return (Some (Fin v)) /\ v = 0.
Proof.
  destruct (calculate_volatility_nonnegative
              [(0%Z, 100); (1%Z, 110); (2%Z, 121)])
    as [v [Hv [_ Hzero]]].
  - simpl. lia.
  - repeat constructor; simpl; lra.
  - exists v. split; [exact Hv |].
    apply (Hzero (1 / 10)). cbn [returns_of returns_from map snd].
    repeat constructor; lra.
Defined.

(** ** The two volatility estimators *)



(** ** The comparison badge *)

Lemma badge_of_display (v1 v2 : float64) (unit : string) (reverse : bool) :
  option_map badge_class
             (display_comparison_metric (Some v1) (Some v2) unit reverse) =
  Some (if fgt (fsub v1 v2) (Fin 0)
        then (if reverse then negative else positive)
        else if flt (fsub v1 v2) (Fin 0)
             then (if reverse then positive else negative)
             else neutral).
Proof.
  unfold display_comparison_metric.
  destruct (fgt (fsub v1 v2) (Fin 0)); [now destruct reverse |].
  destruct (flt (fsub v1 v2) (Fin 0)); now destruct reverse.
Qed.

Lemma sign_of_swapped_difference (v1 v2 : float64) :
  fgt (fsub v2 v1) (Fin 0) = flt (fsub v1 v2) (Fin 0)
  /\ flt (fsub v2 v1) (Fin 0) = fgt (fsub v1 v2) (Fin 0).
Proof.
  unfold fgt.
  destruct v1 as [x | [|] |], v2 as [y | [|] |]; cbn [fsub flt Bool.eqb negb];
    try (split; reflexivity).
  split.
  - destruct (Rlt_dec 0 (y - x)), (Rlt_dec (x - y) 0);
      try reflexivity; lra.
  - destruct (Rlt_dec (y - x) 0), (Rlt_dec 0 (x - y));
      try reflexivity; lra.
Qed.

Lemma signs_exclusive (d : float64) :
  fgt d (Fin 0) = true -> flt d (Fin 0) = false.
Proof.
  unfold fgt. destruct d as [x | [|] |]; cbn [flt]; try discriminate;
    try reflexivity.
  destruct (Rlt_dec 0 x), (Rlt_dec x 0); try discriminate; try reflexivity.
  lra.
Qed.

(** X10.  Exchanging the two values, or switching [reverse], turns the badge into
    its opposite: [positive] and [negative] change places and [neutral]
    stays.  This holds for all values, the infinities and NaN included. *)
Theorem display_comparison_metric_flips
        (v1 v2 : float64) (unit : string) (reverse : bool) :
  option_map badge_class
             (display_comparison_metric (Some v2) (Some v1) unit reverse) =
  option_map (fun c => flip_badge (badge_class c))
             (display_comparison_metric (Some v1) (Some v2) unit reverse)
  /\ option_map badge_class
       (display_comparison_metric (Some v1) (Some v2) unit (negb reverse)) =
     option_map (fun c => flip_badge (badge_class c))
       (display_comparison_metric (Some v1) (Some v2) unit reverse).
Proof.
  assert (Hmap : forall r,
    option_map (fun c => flip_badge (badge_class c))
      (display_comparison_metric (Some v1) (Some v2) unit r) =
    option_map flip_badge
      (option_map badge_class
         (display_comparison_metric (Some v1) (Some v2) unit r))).
  { intros r. now destruct (display_comparison_metric _ _ _ r). }
  rewrite !Hmap, !badge_of_display.
  destruct (sign_of_swapped_difference v1 v2) as [-> ->].
  pose proof (signs_exclusive (fsub v1 v2)) as Hex.
  destruct (fgt (fsub v1 v2) (Fin 0)), (flt (fsub v1 v2) (Fin 0)),
    reverse; cbn; try (split; reflexivity);
    specialize (Hex eq_refl); discriminate.
Qed.

(** X11.  A NaN on either side is not skipped like an absent value: the three
    cards are rendered, with a [neutral] badge whose text is [0] followed by
    the unit. *)
Theorem display_comparison_metric_nan
        (v : float64) (unit : string) (reverse : bool) :
  (exists c, display_comparison_metric (Some NaN) (Some v) unit reverse =
             Some c
             /\ badge_class c = neutral
             /\ comparison_text c = ZeroText unit)
  /\ (exists c, display_comparison_metric (Some v) (Some NaN) unit reverse =
                Some c
                /\ badge_class c = neutral
                /\ comparison_text c = ZeroText unit).
Proof.
  split.
  - eexists. split; [reflexivity |]. split; reflexivity.
  - destruct v as [x | b |]; eexists; (split; [reflexivity |]);
      split; reflexivity.
Qed.

Lemma calculate_volatility_one_point (t : timestamp) (c : float64) :
  calculate_volatility (Some [(t, c)]) = Return (Some NaN).
Proof.
  unfold calculate_volatility, pct_change. cbn [pct_change_from].
  assert (Hnan : fsub (fdiv (if isnan c then NaN else c) NaN) (Fin 1) = NaN).
  { destruct c as [x | b |]; reflexivity. }
  rewrite Hnan. reflexivity.
Qed.

(** X12.  When the first frame holds a single close and the second one any data,
    the volatility row is still rendered: its badge is [neutral] and its
    text [0%], whatever the second volatility is. *)
Theorem volatility_row_one_point
        (t : timestamp) (c : float64) (p : timestamp * float64)
        (rest : DataFrame) :
  exists cmp,
    volatility_row (Some [(t, c)]) (Some (p :: rest)) = Return (Some cmp)
    /\ badge_class cmp = neutral
    /\ comparison_text cmp = ZeroText "%".
Proof.
  unfold volatility_row, if_has_data.
  rewrite calculate_volatility_one_point. cbn [bind].
  assert (Hv : exists v, calculate_volatility (Some (p :: rest)) =
                         Return (Some v))
    by (eexists; reflexivity).
  destruct Hv as [v Hv]. rewrite Hv. cbn [bind].
  eexists. split; [reflexivity |]. split; reflexivity.
Qed.

(** ** The drawdown row *)

Lemma if_has_data_max_drawdown (prices : option DataFrame) (v : float64) :
  calculate_max_drawdown prices = Return (Some v) ->
  if_has_data calculate_max_drawdown prices = Return (Some v).
Proof.
  destruct prices as [[| p r] |]; try discriminate. exact (fun H => H).
Qed.

(** X13.  The drawdown row is shown with [reverse=True] on the signed drawdowns:
    the frame whose maximum drawdown is closer to zero (the smaller loss)
    gets the [negative] badge, the deeper loss the [positive] one, and equal
    drawdowns are [neutral]. *)
Theorem drawdown_row_orientation
        (prices1 prices2 : option DataFrame) (v1 v2 : R) :
  calculate_max_drawdown prices1 = Return (Some (Fin v1)) ->
  calculate_max_drawdown prices2 = Return (Some (Fin v2)) ->
  exists cmp,
    drawdown_row prices1 prices2 = Return (Some cmp)
    /\ (v2 < v1 -> badge_class cmp = negative)
    /\ (v1 < v2 -> badge_class cmp = positive)
    /\ (v1 = v2 -> badge_class cmp = neutral).
Proof.
  intros H1 H2.
  unfold drawdown_row.
  rewrite (if_has_data_max_drawdown _ _ H1), (if_has_data_max_drawdown _ _ H2).
  cbn [bind].
  unfold display_comparison_metric, fgt. cbn [fsub flt].
  destruct (Rlt_dec 0 (v1 - v2)) as [Hgt | Hngt].
  - eexists. split; [reflexivity |]. cbn [badge_class negb].
    repeat split; intros; try reflexivity; lra.
  - destruct (Rlt_dec (v1 - v2) 0) as [Hlt | Hnlt].
    + eexists. split; [reflexivity |]. cbn [badge_class negb].
      repeat split; intros; try reflexivity; lra.
    + eexists. split; [reflexivity |]. cbn [badge_class].
      repeat split; intros; try reflexivity; lra.
Qed.

Lemma drawdown_row_orientation_witness :
  exists cmp,
    drawdown_row (Some (of_reals [(0%Z, 100); (1%Z, 50); (2%Z, 100)]))
                 (Some (of_reals [(0%Z, 100); (1%Z, 200); (2%Z, 100)])) =
    Return (Some cmp)
    /\ badge_class cmp = negative.
Proof.
  destruct (drawdown_row_orientation
              (Some (of_reals [(0%Z, 100); (1%Z, 50); (2%Z, 100)]))
              (Some (of_reals [(0%Z, 100); (1%Z, 200); (2%Z, 100)]))
              0 (-50) max_drawdown_from_first_close max_drawdown_after_peak)
    as [cmp [Hrow [Hneg _]]].
  exists cmp. split; [exact Hrow |]. apply Hneg. lra.
Defined.

(** ** The normalised price chart *)

Lemma index_series_map (f : float64 -> float64) (s : Series) :
  index (series_map f s) = index s.
Proof.
  unfold series_map, index. rewrite map_map. reflexivity.
Qed.

(** X14.  The guard of the main flow makes the [IndexError] of [iloc[0]]
    unreachable: the chart never raises.  It is replaced by the warning
    exactly when a frame is missing or empty, and otherwise each trace keeps
    the timestamps of its frame. *)
Theorem normalized_price_chart_guarded (prices1 prices2 : option DataFrame) :
  exists r,
    normalized_price_chart prices1 prices2 = Return r
    /\ (r = None <-> no_data prices1 \/ no_data prices2)
    /\ (forall norm1 norm2,
           r = Some (norm1, norm2) ->
           exists df1 df2,
             prices1 = Some df1 /\ prices2 = Some df2
             /\ index norm1 = index df1 /\ index norm2 = index df2).
Proof.
  unfold no_data.
  destruct prices1 as [[| [t1 c1] r1] |];
    try (exists None; split; [now destruct prices2 as [[|] |] |];
         split; [split; auto | discriminate]).
  destruct prices2 as [[| [t2 c2] r2] |];
    try (exists None; split; [reflexivity |];
         split; [split; auto | discriminate]).
  eexists. split; [reflexivity |]. split.
  - split; [discriminate |].
    intros [[H | H] | [H | H]]; discriminate.
  - intros norm1 norm2 H. injection H as <- <-.
    eexists. eexists. split; [reflexivity |]. split; [reflexivity |].
    split.
    + exact (index_series_map (fun c => fmul (fdiv c c1) (Fin 100))
                              ((t1, c1) :: r1)).
    + exact (index_series_map (fun c => fmul (fdiv c c2) (Fin 100))
                              ((t2, c2) :: r2)).
Qed.

Lemma normalized_price_chart_guarded_witness :
  exists r,
    normalized_price_chart (Some []) (Some [(0%Z, Fin 10)]) = Return r
    /\ r = None.
Proof.
  destruct (normalized_price_chart_guarded (Some []) (Some [(0%Z, Fin 10)]))
    as [r [Hr [Hnone _]]].
  exists r. split; [exact Hr |].
  apply Hnone. left. right. reflexivity.
Defined.

(** ** Fetching the prices *)

(** X15.  [get_historical_prices] never raises.  It shows an error message exactly
    when it returns [None].  With representable dates, a non-empty download
    is returned as it is and the second service is not consulted; otherwise
    the second service decides: its frame is returned even when it is
    empty, and its failure gives [None]. *)
Theorem get_historical_prices_fallback
        (today : date)
        (yf_download ticker_history : string -> date -> date -> fetched)
        (symbol : string) (years : Z) :
  let end_date := (today + 1)%Z in
  let start_date := (end_date - years * 365)%Z in
  let result :=
    get_historical_prices today yf_download ticker_history symbol years in
  (fst result = None <-> snd result = true)
  /\ (representable end_date && representable start_date = true ->
      (forall p r,
          yf_download symbol start_date end_date = Fetched (p :: r) ->
          result = (Some (p :: r), false))
      /\ (yf_download symbol start_date end_date = Failed
          \/ yf_download symbol start_date end_date = Fetched [] ->
          result =
          match ticker_history symbol start_date end_date with
          | Fetched hist => (Some hist, false)
          | Failed => (None, true)
          end))
  /\ (representable end_date && representable start_date = false ->
      result = (None, true)).
Proof.
  intros end_date start_date result. subst result.
  unfold get_historical_prices. fold end_date. fold start_date.
  destruct (representable end_date && representable start_date) eqn:Hrep;
    cbn [negb].
  - split; [| split; [| discriminate]].
    + destruct (yf_download symbol start_date end_date) as [| [| p r]];
        destruct (ticker_history symbol start_date end_date);
        cbn [fst snd]; split; intros H; try discriminate; reflexivity.
    + intros _. split.
      * intros p r ->. reflexivity.
      * intros [-> | ->]; reflexivity.
  - split; [| split; [discriminate |]].
    + cbn [fst snd]. split; reflexivity.
    + reflexivity.
Qed.

Lemma get_historical_prices_fallback_witness :
  get_historical_prices 739000%Z
    (fun _ _ _ => Fetched [])
    (fun _ _ _ => Fetched [(738999%Z, Fin 10)]) "AAPL" 5 =
  (Some [(738999%Z, Fin 10)], false).
Proof.
  apply (get_historical_prices_fallback 739000%Z
           (fun _ _ _ => Fetched [])
           (fun _ _ _ => Fetched [(738999%Z, Fin 10)]) "AAPL" 5).
  - reflexivity.
  - right. reflexivity.
Defined.

Lemma calculate_cagr_total (prices : option DataFrame) (years : Z) :
  years <> 0%Z ->
  (no_data prices -> calculate_cagr prices years = Return None)
  /\ (~ no_data prices ->
      exists v, calculate_cagr prices years = Return (Some v)).
Proof.
  intros Hy. unfold no_data. split.
  - intros [-> | ->]; reflexivity.
  - intros Hdata. destruct prices as [[| [t0 c0] rest] |];
      try (exfalso; apply Hdata; auto; fail).
    unfold calculate_cagr.
    destruct (Z.eqb_spec years 0); [contradiction |].
    eexists. reflexivity.
Qed.

(** X16.  The CAGR section of the main flow never raises, whatever the services
    return: its horizons are 1, 3 and 5 years, so the division by [years]
    is safe.  A row renders nothing exactly when one of its two fetches has
    no data. *)
Theorem cagr_section_never_raises
        (today : date)
        (yf_download ticker_history : string -> date -> date -> fetched)
        (ticker1 ticker2 : string) :
  let fetch := get_historical_prices today yf_download ticker_history in
  length (cagr_section today yf_download ticker_history ticker1 ticker2) = 3%nat
  /\ forall years,
      In years [1%Z; 3%Z; 5%Z] ->
      In (cagr_row today yf_download ticker_history ticker1 ticker2 years)
         (cagr_section today yf_download ticker_history ticker1 ticker2)
      /\ exists r,
          cagr_row today yf_download ticker_history ticker1 ticker2 years =
          Return r
          /\ (r = None <->
              no_data (fst (fetch ticker1 years))
              \/ no_data (fst (fetch ticker2 years))).
Proof.
  intros fetch. split; [reflexivity |].
  intros years Hin.
  assert (Hy : years <> 0%Z).
  { cbn [In] in Hin. destruct Hin as [<- | [<- | [<- | []]]]; lia. }
  split.
  - unfold cagr_section. cbn [In] in *.
    destruct Hin as [<- | [<- | [<- | []]]]; auto.
  - unfold cagr_row. fold fetch.
    destruct (calculate_cagr_total (fst (fetch ticker1 years)) years Hy)
      as [Hnone1 Hsome1].
    destruct (calculate_cagr_total (fst (fetch ticker2 years)) years Hy)
      as [Hnone2 Hsome2].
    assert (Hdec : forall prices, no_data prices \/ ~ no_data prices).
    { intros [[| p r] |]; unfold no_data; auto.
      right. intros [H | H]; discriminate. }
    destruct (Hdec (fst (fetch ticker1 years))) as [Hd1 | Hd1].
    + rewrite Hnone1 by assumption. cbn [bind].
      destruct (Hdec (fst (fetch ticker2 years))) as [Hd2 | Hd2].
      * rewrite Hnone2 by assumption. cbn [bind].
        exists None. split; [reflexivity |]. split; auto.
      * destruct (Hsome2 Hd2) as [v2 ->]. cbn [bind].
        exists None. split; [reflexivity |]. split; auto.
    + destruct (Hsome1 Hd1) as [v1 ->]. cbn [bind].
      destruct (Hdec (fst (fetch ticker2 years))) as [Hd2 | Hd2].
      * rewrite Hnone2 by assumption. cbn [bind].
        exists None. split; [reflexivity |]. split; auto.
      * destruct (Hsome2 Hd2) as [v2 ->]. cbn [bind].
        eexists. split; [reflexivity |].
        unfold display_comparison_metric.
        destruct (fgt (fsub v1 v2) (Fin 0)), (flt (fsub v1 v2) (Fin 0));
          (split; [discriminate | intros [H | H]; contradiction]).
Qed.

Lemma cagr_section_never_raises_witness :
  exists r,
    cagr_row 739000%Z (fun _ _ _ => Failed) (fun _ _ _ => Failed)
             "AAPL" "MSFT" 3 = Return r.
Proof.
  destruct (proj2 (cagr_section_never_raises 739000%Z
                     (fun _ _ _ => Failed) (fun _ _ _ => Failed)
                     "AAPL" "MSFT") 3%Z)
    as [_ [r [Hr _]]].
  - cbn [In]. auto.
  - exists r. exact Hr.
Defined.

(** ** Company information *)

Lemma round2_le_cents (x : R) (z : Z) :
  x <= IZR z / 100 -> round2 x <= IZR z / 100.
Proof.
  intros Hx. unfold round2.
  pose proof (rint_close (x * 100)) as [Hlo _].
  assert (H : IZR (rint (x * 100)) < IZR (z + 1))
    by (rewrite plus_IZR; lra).
  apply lt_IZR in H.
  assert (H0 : (rint (x * 100) <= z)%Z) by lia.
  apply IZR_le in H0. lra.
Qed.

(** X17.  A capitalisation below one million, and any value that is not a
    number, is shown as it came.  From one million on it is shown as an
    amount with the suffix M, B or T according to its magnitude: the amount
    is the capitalisation divided by the unit, rounded to two decimals (a
    nearest cent, see [rounded_to_cents]); it is never below 1.00, and with
    M or B it is at most 1000.00, a bound that is reached: 999,999,999 is
    shown as 1000.00 M, not as 1.00 B. *)
Theorem format_market_cap_ranges (x : R) :
  (x < 1000000 -> format_market_cap (PNum x) = CapRaw (PNum x))
  /\ (1000000 <= x < 1000000000 ->
      exists amount,
        format_market_cap (PNum x) = CapMoney amount "M"
        /\ rounded_to_cents amount (x / 1000000)
        /\ 1 <= amount <= 1000)
  /\ (1000000000 <= x < 1000000000000 ->
      exists amount,
        format_market_cap (PNum x) = CapMoney amount "B"
        /\ rounded_to_cents amount (x / 1000000000)
        /\ 1 <= amount <= 1000)
  /\ (1000000000000 <= x ->
      exists amount,
        format_market_cap (PNum x) = CapMoney amount "T"
        /\ rounded_to_cents amount (x / 1000000000000)
        /\ 1 <= amount)
  /\ format_market_cap (PNum 999999999) = CapMoney 1000 "M"
  /\ (forall s, format_market_cap (PStr s) = CapRaw (PStr s))
  /\ format_market_cap PNone = CapRaw PNone.
Proof.
  assert (Hone : 1 = IZR 100 / 100) by lra.
  assert (Hk : 1000 = IZR 100000 / 100) by lra.
  split; [| split; [| split; [| split; [| split; [| split]]]]].
  - intros Hx. unfold format_market_cap.
    repeat match goal with
           | |- context [Rle_dec ?a ?b] => destruct (Rle_dec a b); try lra
           end.
    reflexivity.
  - intros [Hlo Hhi]. unfold format_market_cap.
    repeat match goal with
           | |- context [Rle_dec ?a ?b] => destruct (Rle_dec a b); try lra
           end.
    eexists. split; [reflexivity |].
    split; [apply round2_rounded_to_cents |]. split.
    + rewrite Hone at 1. apply round2_ge_cents. lra.
    + rewrite Hk. apply round2_le_cents. lra.
  - intros [Hlo Hhi]. unfold format_market_cap.
    repeat match goal with
           | |- context [Rle_dec ?a ?b] => destruct (Rle_dec a b); try lra
           end.
    eexists. split; [reflexivity |].
    split; [apply round2_rounded_to_cents |]. split.
    + rewrite Hone at 1. apply round2_ge_cents. lra.
    + rewrite Hk. apply round2_le_cents. lra.
  - intros Hlo. unfold format_market_cap.
    repeat match goal with
           | |- context [Rle_dec ?a ?b] => destruct (Rle_dec a b); try lra
           end.
    eexists. split; [reflexivity |].
    split; [apply round2_rounded_to_cents |].
    rewrite Hone at 1. apply round2_ge_cents. lra.
  - unfold format_market_cap.
    repeat match goal with
           | |- context [Rle_dec ?a ?b] => destruct (Rle_dec a b); try lra
           end.
    f_equal. unfold round2.
    rewrite (rint_unique (999999999 / 1000000 * 100) 100000) by lra.
    lra.
  - reflexivity.
  - reflexivity.
Qed.

Lemma format_market_cap_ranges_witness :
  exists amount,
    format_market_cap (PNum 1015000) = CapMoney amount "M"
    /\ rounded_to_cents amount (1015000 / 1000000)
    /\ 1 <= amount <= 1000.
Proof.
  apply (format_market_cap_ranges 1015000). lra.
Defined.

Lemma char_length_take (n : nat) (text : string) :
  char_length (take n text) = Nat.min n (char_length text).
Proof.
  revert n. induction text as [| c text IH]; intros n.
  - cbn [take char_length]. lia.
  - cbn [take char_length]. destruct (is_continuation c) eqn:Hc.
    + cbn [char_length]. rewrite Hc. apply IH.
    + destruct n as [| n]; [reflexivity |].
      cbn [char_length]. rewrite Hc, IH. reflexivity.
Qed.

Lemma take_prefix (n : nat) (text : string) :
  exists rest, text = (take n text ++ rest)%string.
Proof.
  revert n. induction text as [| c text IH]; intros n.
  - exists EmptyString. reflexivity.
  - cbn [take]. destruct (is_continuation c).
    + destruct (IH n) as [rest Hrest]. exists rest.
      cbn [String.append]. now rewrite <- Hrest.
    + destruct n as [| n].
      * exists (String c text). reflexivity.
      * destruct (IH n) as [rest Hrest]. exists rest.
        cbn [String.append]. now rewrite <- Hrest.
Qed.

Lemma take_all (n : nat) (text : string) :
  (char_length text <= n)%nat -> take n text = text.
Proof.
  revert n. induction text as [| c text IH]; intros n Hlen; [reflexivity |].
  cbn [take char_length] in *. destruct (is_continuation c).
  - f_equal. apply IH. exact Hlen.
  - destruct n as [| n]; [lia |]. f_equal. apply IH. lia.
Qed.

(** X18.  The translator is given the first 2000 characters of the
    description, never more: a text of at most 2000 characters is passed
    whole, whatever its length in bytes, and a longer one is cut after its
    2000th character.  When the translation succeeds the description
    becomes the translation of that prefix, so the text beyond 2000
    characters is lost; when it fails the description stays the whole
    original text, however long.  A description that is not a string is
    left as it is. *)
Theorem translated_description
        (translate : string -> option string) (text : string) :
  char_length (take 2000 text) = Nat.min 2000 (char_length text)
  /\ (exists rest, text = (take 2000 text ++ rest)%string)
  /\ ((char_length text <= 2000)%nat -> take 2000 text = text)
  /\ (forall spanish,
         translate (take 2000 text) = Some spanish ->
         translated translate (PStr text) = PStr spanish)
  /\ (translate (take 2000 text) = None ->
      translated translate (PStr text) = PStr text)
  /\ (forall x, translated translate (PNum x) = PNum x)
  /\ translated translate PNone = PNone.
Proof.
  split; [apply char_length_take |].
  split; [apply take_prefix |].
  split; [apply take_all |].
  split; [| split; [| split; [reflexivity | reflexivity]]].
  - intros spanish H. unfold translated. now rewrite H.
  - intros H. unfold translated. now rewrite H.
Qed.

Lemma translated_description_witness :
  take 2000 "País" = "País"%string
  /\ translated (fun _ => None) (PStr "País") = PStr "País".
Proof.
  destruct (translated_description (fun _ => None) "País")
    as [_ [_ [Hall [_ [Hfail _]]]]].
  split.
  - apply Hall. cbn. lia.
  - apply Hfail. reflexivity.
Defined.

Lemma dict_get_missing (info : info_dict) (key : string) (default : pyval) :
  has_key info key = false -> dict_get info key default = default.
Proof.
  induction info as [| [k v] info IH]; [reflexivity |].
  cbn [has_key existsb fst dict_get]. intros H.
  apply Bool.orb_false_iff in H as [Hk Hrest].
  rewrite Hk. apply IH. exact Hrest.
Qed.

Lemma dict_get_present (info : info_dict) (key : string) (d1 d2 : pyval) :
  has_key info key = true -> dict_get info key d1 = dict_get info key d2.
Proof.
  induction info as [| [k v] info IH]; [discriminate |].
  cbn [has_key existsb fst dict_get]. intros H.
  destruct (String.eqb k key); [reflexivity |].
  apply IH. exact H.
Qed.

(** X19.  [get_company_info] fails only when the service fails.  Otherwise it
    echoes the symbol; the name is [shortName], else [longName], else the
    symbol itself; a missing sector, market capitalisation or currency is
    replaced by its placeholder; and a missing description is the
    placeholder text, translated when the translation succeeds. *)
Theorem get_company_info_fallbacks
        (ticker_info : string -> option info_dict)
        (translate : string -> option string) (symbol : string) :
  (ticker_info symbol = None ->
   get_company_info ticker_info translate symbol = CompanyError)
  /\ (forall info,
         ticker_info symbol = Some info ->
         exists c,
           get_company_info ticker_info translate symbol = Company c
           /\ co_symbol c = symbol
           /\ (has_key info "shortName" = true ->
               co_name c = dict_get info "shortName" PNone)
           /\ (has_key info "shortName" = false ->
               has_key info "longName" = true ->
               co_name c = dict_get info "longName" PNone)
           /\ (has_key info "shortName" = false ->
               has_key info "longName" = false ->
               co_name c = PStr symbol)
           /\ (has_key info "sector" = false ->
               co_sector c = PStr "Sector no disponible")
           /\ (has_key info "marketCap" = false ->
               co_market_cap c = CapRaw (PStr "N/A"))
           /\ (has_key info "currency" = false ->
               co_currency c = PStr "N/A")
           /\ (has_key info "longBusinessSummary" = false ->
               co_description c =
               translated translate (PStr "Descripción no disponible."))).
Proof.
  split.
  - intros H. unfold get_company_info. now rewrite H.
  - intros info H. unfold get_company_info. rewrite H.
    eexists. split; [reflexivity |].
    cbn [co_symbol co_name co_sector co_market_cap co_currency
         co_description].
    split; [reflexivity |].
    split; [intros Hs; now apply dict_get_present |].
    split; [intros Hs Hl; rewrite (dict_get_missing _ _ _ Hs);
            now apply dict_get_present |].
    split; [intros Hs Hl; now rewrite (dict_get_missing _ _ _ Hs),
                                     (dict_get_missing _ _ _ Hl) |].
    split; [intros Hk; now rewrite (dict_get_missing _ _ _ Hk) |].
    split; [intros Hk; now rewrite (dict_get_missing _ _ _ Hk) |].
    split; [intros Hk; now rewrite (dict_get_missing _ _ _ Hk) |].
    intros Hk. now rewrite (dict_get_missing _ _ _ Hk).
Qed.

Lemma get_company_info_fallbacks_witness :
  exists c,
    get_company_info
      (fun _ => Some [("longName"%string, PStr "Apple Inc.")])
      (fun _ => None) "AAPL" = Company c
    /\ co_name c = PStr "Apple Inc."
    /\ co_market_cap c = CapRaw (PStr "N/A").
Proof.
  destruct (proj2 (get_company_info_fallbacks
                     (fun _ => Some [("longName"%string, PStr "Apple Inc.")])
                     (fun _ => None) "AAPL")
                  [("longName"%string, PStr "Apple Inc.")] eq_refl)
    as [c [Hc [_ [_ [Hlong [_ [_ [Hcap _]]]]]]]].
  exists c. split; [exact Hc |]. split.
  - rewrite Hlong; reflexivity.
  - apply Hcap. reflexivity.
Defined.
